(** * HP-Cms-Puzzle: incremental mirror of the CMS provider-data catalog

    A shallow embedding of [main.py] and the properties of its
    change-detection, ingestion and checkpoint logic.

    Conventions of the embedding.
    - A Python [str] is a [list ascii]: a sequence of code points below 256
      (ASCII and Latin-1).  On that range [str.lower] works character by
      character and [\d] is [0-9].
    - A Python [dict] is an association list kept in insertion order, with
      [dict_get] and [dict_set] for [d.get(k)] and [d[k] = v].
    - A raised exception is a value of [exn]; a call that may raise returns
      a sum, [inl] for the exception.
    - The outside world (the checkpoint file, the HTTP answers, pandas and
      the file system under [processed_csv]) is an explicit argument. *)

From Stdlib Require Import Ascii String List Bool Arith Lia Permutation.
Import ListNotations.

Set Implicit Arguments.

(** ** Python strings *)

Definition str := list ascii.

Definition lit (s : string) : str := list_ascii_of_string s.

Definition code (c : ascii) : nat := nat_of_ascii c.

Definition in_range (lo hi : nat) (c : ascii) : bool :=
  (lo <=? code c) && (code c <=? hi).

Definition is_digit (c : ascii) : bool := in_range 48 57 c.
Definition is_lower (c : ascii) : bool := in_range 97 122 c.
Definition is_upper (c : ascii) : bool := in_range 65 90 c.

(** The character class [a-zA-Z0-9] of the first pattern of [to_snake_case]. *)
Definition is_alnum (c : ascii) : bool := is_lower c || is_upper c || is_digit c.

Definition underscore : ascii := "_"%char.
Definition is_underscore (c : ascii) : bool := Ascii.eqb c underscore.

(** [str.lower] on one code point below 256: [A-Z] and the Latin-1 capitals
    U+00C0..U+00DE (the multiplication sign U+00D7 apart) move up by 32. *)
Definition lower_char (c : ascii) : ascii :=
  if is_upper c || (in_range 192 222 c && negb (code c =? 215))
  then ascii_of_nat (code c + 32)
  else c.

Definition lower (s : str) : str := map lower_char s.

(** [re.sub(p+, repl, s)] for a pattern [p+] over one character class:
    every maximal run of characters of the class becomes one [repl].
    [in_run] tells that the previous character belonged to the class. *)
Fixpoint re_sub_runs (p : ascii -> bool) (repl : str) (in_run : bool) (s : str) : str :=
  match s with
  | [] => []
  | c :: s' =>
      if p c
      then (if in_run then [] else repl) ++ re_sub_runs p repl true s'
      else c :: re_sub_runs p repl false s'
  end.

Definition re_sub_plus (p : ascii -> bool) (repl s : str) : str :=
  re_sub_runs p repl false s.

Fixpoint lstrip (p : ascii -> bool) (s : str) : str :=
  match s with
  | [] => []
  | c :: s' => if p c then lstrip p s' else s
  end.

Definition rstrip (p : ascii -> bool) (s : str) : str := rev (lstrip p (rev s)).

(** [s.strip(chars)] with [p] the membership test of [chars]. *)
Definition strip (p : ascii -> bool) (s : str) : str := rstrip p (lstrip p s).

(** main.py, lines 14-18. *)
Definition to_snake_case (name : str) : str :=
  let name := re_sub_plus (fun c => negb (is_alnum c)) [underscore] (lower name) in
  let name := re_sub_plus is_underscore [underscore] name in
  strip is_underscore name.

(** The shape of a normalized label. *)
Definition is_snake_char (c : ascii) : bool :=
  is_lower c || is_digit c || is_underscore c.

Fixpoint no_adjacent (p : ascii -> bool) (s : str) : bool :=
  match s with
  | [] => true
  | c :: s' =>
      match s' with
      | [] => true
      | c' :: _ => negb (p c && p c') && no_adjacent p s'
      end
  end.

Definition head_is (p : ascii -> bool) (s : str) : bool :=
  match s with
  | [] => false
  | c :: _ => p c
  end.

Definition last_is (p : ascii -> bool) (s : str) : bool := head_is p (rev s).

Record snake (s : str) : Prop := {
  snake_chars : Forall (fun c => is_snake_char c = true) s;
  snake_single : no_adjacent is_underscore s = true;
  snake_head : head_is is_underscore s = false;
  snake_last : last_is is_underscore s = false
}.

(** ** Calendar dates: [datetime.strptime(s, "%Y-%m-%d").date()] *)

Record date := mkdate { year : nat; month : nat; day : nat }.

Definition digit_val (c : ascii) : nat := code c - 48.

Definition hyphen : ascii := "-"%char.
Definition space : ascii := " "%char.

(** [%Y] is the pattern [\d\d\d\d]. *)
Definition re_year (s : str) : option (nat * str) :=
  match s with
  | a :: b :: c :: d :: rest =>
      if is_digit a && is_digit b && is_digit c && is_digit d
      then Some (1000 * digit_val a + 100 * digit_val b + 10 * digit_val c + digit_val d, rest)
      else None
  | _ => None
  end.

(** One alternative made of a first character in [p1] and a second in [p2]. *)
Definition alt2 (p1 p2 : ascii -> bool) (s : str) : list (nat * str) :=
  match s with
  | a :: b :: rest =>
      if p1 a && p2 b then [(10 * digit_val a + digit_val b, rest)] else []
  | _ => []
  end.

(** One alternative made of a single character in [p]. *)
Definition alt1 (p : ascii -> bool) (s : str) : list (nat * str) :=
  match s with
  | a :: rest => if p a then [(digit_val a, rest)] else []
  | _ => []
  end.

Definition is_char (x : ascii) (c : ascii) : bool := Ascii.eqb c x.

(** [%m] is [1[0-2]|0[1-9]|[1-9]]: the matches at the head of [s], in the
    order in which the backtracking matcher tries them. *)
Definition re_month (s : str) : list (nat * str) :=
  alt2 (is_char "1") (in_range 48 50) s
  ++ alt2 (is_char "0") (in_range 49 57) s
  ++ alt1 (in_range 49 57) s.

(** [%d] is [3[0-1]|[1-2]\d|0[1-9]|[1-9]| [1-9]]. *)
Definition re_day (s : str) : list (nat * str) :=
  alt2 (is_char "3") (in_range 48 49) s
  ++ alt2 (in_range 49 50) is_digit s
  ++ alt2 (is_char "0") (in_range 49 57) s
  ++ alt1 (in_range 49 57) s
  ++ match s with
     | a :: rest => if is_char space a then alt1 (in_range 49 57) rest else []
     | [] => []
     end.

Definition expect (x : ascii) (s : str) : option str :=
  match s with
  | c :: rest => if Ascii.eqb c x then Some rest else None
  | [] => None
  end.

(** The first way (in the matcher's order) to continue a month candidate with
    a hyphen and a day. *)
Fixpoint first_month_day (ms : list (nat * str)) : option (nat * nat * str) :=
  match ms with
  | [] => None
  | (m, rest) :: ms' =>
      match expect hyphen rest with
      | Some rest' =>
          match re_day rest' with
          | (d, rest'') :: _ => Some (m, d, rest'')
          | [] => first_month_day ms'
          end
      | None => first_month_day ms'
      end
  end.

(** [format_regex.match(data_string)]: the fields and the unmatched rest. *)
Definition re_match_ymd (s : str) : option (nat * nat * nat * str) :=
  match re_year s with
  | Some (y, rest) =>
      match expect hyphen rest with
      | Some rest' =>
          match first_month_day (re_month rest') with
          | Some (m, d, rest'') => Some (y, m, d, rest'')
          | None => None
          end
      | None => None
      end
  | None => None
  end.

Definition is_leap (y : nat) : bool :=
  ((y mod 4 =? 0) && negb (y mod 100 =? 0)) || (y mod 400 =? 0).

Definition days_in_month (y m : nat) : nat :=
  match m with
  | 2 => if is_leap y then 29 else 28
  | 4 | 6 | 9 | 11 => 30
  | _ => 31
  end.

(** The range checks of the [date] constructor ([MINYEAR] is 1; the four
    digits of [%Y] keep the year below [MAXYEAR], 9999). *)
Definition valid_date (d : date) : bool :=
  (1 <=? year d)
  && (1 <=? month d) && (month d <=? 12)
  && (1 <=? day d) && (day d <=? days_in_month (year d) (month d)).

(** [datetime.strptime(s, "%Y-%m-%d").date()]; [None] is [ValueError]
    (no match, unconverted data left, or a day that the month lacks). *)
Definition strptime (s : str) : option date :=
  match re_match_ymd s with
  | Some (y, m, d, []) =>
      let dt := mkdate y m d in
      if valid_date dt then Some dt else None
  | _ => None
  end.

(** [a <= b] on dates. *)
Definition date_leb (a b : date) : bool :=
  (year a <? year b)
  || ((year a =? year b)
      && ((month a <? month b) || ((month a =? month b) && (day a <=? day b)))).

Definition date_ltb (a b : date) : bool := negb (date_leb b a).

Definition digit_char (n : nat) : ascii := ascii_of_nat (48 + n mod 10).

Definition pad2 (n : nat) : str := [digit_char (n / 10); digit_char n].

Definition pad4 (n : nat) : str :=
  [digit_char (n / 1000); digit_char (n / 100); digit_char (n / 10); digit_char n].

(** [date.isoformat()]: [%04d-%02d-%02d]. *)
Definition isoformat (d : date) : str :=
  pad4 (year d) ++ [hyphen] ++ pad2 (month d) ++ [hyphen] ++ pad2 (day d).

(** ** Python dictionaries with string keys *)

Definition str_eqb (a b : str) : bool :=
  if list_eq_dec ascii_dec a b then true else false.

Section PyDict.
Variable V : Type.

Definition pydict := list (str * V).

(** [d.get(k)] *)
Fixpoint dict_get (d : pydict) (k : str) : option V :=
  match d with
  | [] => None
  | (k', v) :: d' => if str_eqb k' k then Some v else dict_get d' k
  end.

(** [d[k] = v]: an existing key keeps its place, a new one goes last. *)
Fixpoint dict_set (d : pydict) (k : str) (v : V) : pydict :=
  match d with
  | [] => [(k, v)]
  | (k', v') :: d' =>
      if str_eqb k' k then (k', v) :: d' else (k', v') :: dict_set d' k v
  end.

Definition dict_keys (d : pydict) : list str := map fst d.
End PyDict.

(** The checkpoint: dataset identifier to last modified date, both strings. *)
Definition checkpoint := pydict str.

(** ** Exceptions and printed lines *)

Inductive exn :=
| KeyError (key : str)
| ValueError
| JSONDecodeError
| HTTPError
| OSError (what : str)
| ParserError (what : str).

(** What [print] wrote, one constructor per call site. *)
Inductive printed :=
| PrintSkipping (modified_str : str)   (* line 82 *)
| PrintSaved (output_path : str)       (* line 45 *)
| PrintError (url : str) (e : exn)     (* line 48 *)
| PrintNoNew.                          (* line 94 *)

(** ** The catalog *)

(** A key that a JSON object may lack is an [option]. *)
Record distribution := {
  mediaType : option str;
  downloadURL : option str
}.

Record dataset := {
  theme : option (list str);
  identifier : option str;
  title : option str;
  modified : option str;
  distributions : option (list distribution)
}.

(** One entry of [to_download]: [(url, identifier, modified_date, title)]. *)
Record task := {
  t_url : str;
  t_identifier : str;
  t_modified : date;
  t_title : str
}.

Fixpoint starts_with (p s : str) : bool :=
  match p, s with
  | [], _ => true
  | a :: p', b :: s' => Ascii.eqb a b && starts_with p' s'
  | _ :: _, [] => false
  end.

(** [p in s] *)
Fixpoint contains (p s : str) : bool :=
  starts_with p s
  || match s with
     | [] => false
     | _ :: s' => contains p s'
     end.

(** [d.get(k, default)] *)
Definition get_or {A} (default : A) (o : option A) : A :=
  match o with
  | Some a => a
  | None => default
  end.

(** The truth value of [d.get(k)] when the value, if any, is a string. *)
Definition truthy (o : option str) : option str :=
  match o with
  | Some (c :: s) => Some (c :: s)
  | _ => None
  end.

(** What one turn of the loop over [datasets] does (main.py, lines 62-91). *)
Inductive selection :=
| Skip                      (* nothing appended *)
| SkipInvalid (modified_str : str)
                            (* the [except ValueError] branch: one line printed *)
| Emit (t : task)           (* one task appended to [to_download] *)
| Raise (e : exn).          (* an exception that nothing catches *)

(** Lines 87-91: the first distribution whose [mediaType] is [text/csv]. *)
Fixpoint first_csv (ds : list distribution) : option distribution :=
  match ds with
  | [] => None
  | dist :: ds' =>
      match mediaType dist with
      | Some mt => if str_eqb mt (lit "text/csv") then Some dist else first_csv ds'
      | None => first_csv ds'
      end
  end.

Definition emit_csv (ident ttl : str) (modified_date : date) (d : dataset) : selection :=
  match first_csv (get_or [] (distributions d)) with
  | Some dist =>
      match downloadURL dist with
      | Some url => Emit {| t_url := url; t_identifier := ident;
                            t_modified := modified_date; t_title := ttl |}
      | None => Raise (KeyError (lit "downloadURL"))
      end
  | None => Skip
  end.

Definition select_dataset (metadata : checkpoint) (d : dataset) : selection :=
  if existsb (contains (lit "Hospitals")) (get_or [] (theme d)) then
    match identifier d with
    | None => Raise (KeyError (lit "identifier"))
    | Some ident =>
        let ttl := get_or (lit "untitled") (title d) in
        match truthy (modified d) with
        | Some modified_str =>
            match strptime modified_str with
            | None => SkipInvalid modified_str
            | Some modified_date =>
                match truthy (dict_get metadata ident) with
                | Some last_modified_str =>
                    match strptime last_modified_str with
                    | None => SkipInvalid modified_str
                    | Some last_modified_date =>
                        if date_leb modified_date last_modified_date
                        then Skip
                        else emit_csv ident ttl modified_date d
                    end
                | None => emit_csv ident ttl modified_date d
                end
            end
        | None => Skip
        end
    end
  else Skip.

(** The loop of lines 62-91: the tasks and the printed lines, or the
    exception that ended the run. *)
Fixpoint select_loop (metadata : checkpoint) (datasets : list dataset)
    (to_download : list task) (out : list printed)
    : exn + (list task * list printed) :=
  match datasets with
  | [] => inr (to_download, out)
  | d :: rest =>
      match select_dataset metadata d with
      | Skip => select_loop metadata rest to_download out
      | SkipInvalid m =>
          select_loop metadata rest to_download (out ++ [PrintSkipping m])
      | Emit t => select_loop metadata rest (to_download ++ [t]) out
      | Raise e => inl e
      end
  end.

Definition select_changes (metadata : checkpoint) (datasets : list dataset)
    : exn + (list task * list printed) :=
  select_loop metadata datasets [] [].

(** ** One ingestion: [process_csv] (main.py, lines 33-49) *)

Definition OUTPUT_DIR : str := lit "processed_csv".
Definition METADATA_FILE : str := lit "metadata.json".

(** A pandas frame: its column labels and its rows. *)
Record dataframe := {
  columns : list str;
  rows : list (list str)
}.

(** What the three library calls of one invocation do: [pd.read_csv(url)]
    returns a frame or raises, [os.makedirs] and [df.to_csv] return or raise. *)
Record io := {
  read_csv : exn + dataframe;
  makedirs : option exn;
  to_csv : option exn
}.

(** [df.rename(columns={col: to_snake_case(col) for col in df.columns})] *)
Definition rename_columns (df : dataframe) : dataframe :=
  {| columns := map to_snake_case (columns df); rows := rows df |}.

(** [os.path.join(OUTPUT_DIR, f"{readable_title}-{identifier}.csv")] with the
    POSIX separator; the file name starts with a letter, a digit or the
    hyphen, never with the separator, so the directory is kept. *)
Definition path_of (readable_title ident : str) : str :=
  OUTPUT_DIR ++ lit "/" ++ readable_title ++ [hyphen] ++ ident ++ lit ".csv".

Definition output_path (ttl ident : str) : str :=
  path_of (to_snake_case ttl) ident.

(** The body of the [try]: the path and the frame written, or what was raised. *)
Definition process_csv_try (w : io) (ident ttl : str) : exn + (str * dataframe) :=
  match read_csv w with
  | inl e => inl e
  | inr df =>
      let df := rename_columns df in
      match makedirs w with
      | Some e => inl e
      | None =>
          let p := output_path ttl ident in
          match to_csv w with
          | Some e => inl e
          | None => inr (p, df)
          end
      end
  end.

(** What a call of [process_csv] leaves behind. *)
Record ingestion := {
  returned : exn + bool;               (* the value returned, or an exception *)
  written : option (str * dataframe);  (* the file written, if any *)
  said : printed                       (* the line printed *)
}.

Definition process_csv (w : io) (url ident ttl : str) : ingestion :=
  match process_csv_try w ident ttl with
  | inr (p, df) =>
      {| returned := inr true; written := Some (p, df); said := PrintSaved p |}
  | inl e =>
      {| returned := inr false; written := None; said := PrintError url e |}
  end.

Definition run_task (w : io) (t : task) : ingestion :=
  process_csv w (t_url t) (t_identifier t) (t_title t).

(** ** The worker pool: [ThreadPoolExecutor] as a transition system

    [submit] queues a work item and starts a worker thread when no worker was
    counted idle and fewer than [max_workers] threads exist.  A worker polls
    the queue; finding it empty it raises the idle count and waits; otherwise
    it takes the first item, runs it and stores the result in its future. *)

Module Pool.
Section Executor.
Variables W R : Type.
(** The function submitted, applied to the item of the [i]-th future. *)
Variable run : nat -> W -> R.
Variable max_workers : nat.

Inductive worker :=
| Polling                     (* about to look at the queue *)
| Waiting                     (* blocked on the empty queue *)
| Busy (i : nat) (w : W).     (* running the item of future [i] *)

Record state := {
  unsubmitted : list (nat * W);  (* iterations of the comprehension still to run *)
  work_queue : list (nat * W);
  workers : list worker;
  idle_semaphore : nat;
  done : list (nat * R)          (* futures that hold their result *)
}.

Fixpoint enumerate (i : nat) (ws : list W) : list (nat * W) :=
  match ws with
  | [] => []
  | w :: ws' => (i, w) :: enumerate (S i) ws'
  end.

Definition init (ws : list W) : state :=
  {| unsubmitted := enumerate 0 ws; work_queue := []; workers := [];
     idle_semaphore := 0; done := [] |}.

Definition is_busy (w : worker) : bool :=
  match w with
  | Busy _ _ => true
  | _ => false
  end.

(** The number of items being run at this moment. *)
Definition running (s : state) : nat := length (filter is_busy (workers s)).

(** [_adjust_thread_count] *)
Definition adjust_thread_count (sem : nat) (ws : list worker) : nat * list worker :=
  match sem with
  | S sem' => (sem', ws)
  | O => if length ws <? max_workers then (O, ws ++ [Polling]) else (O, ws)
  end.

Inductive step : state -> state -> Prop :=
| step_submit : forall x u q ws sem d,
    step {| unsubmitted := x :: u; work_queue := q; workers := ws;
            idle_semaphore := sem; done := d |}
         {| unsubmitted := u; work_queue := q ++ [x];
            workers := snd (adjust_thread_count sem ws);
            idle_semaphore := fst (adjust_thread_count sem ws); done := d |}
| step_take : forall u i w q ws1 w0 ws2 sem d,
    is_busy w0 = false ->
    step {| unsubmitted := u; work_queue := (i, w) :: q;
            workers := ws1 ++ w0 :: ws2; idle_semaphore := sem; done := d |}
         {| unsubmitted := u; work_queue := q;
            workers := ws1 ++ Busy i w :: ws2; idle_semaphore := sem; done := d |}
| step_idle : forall u ws1 ws2 sem d,
    step {| unsubmitted := u; work_queue := [];
            workers := ws1 ++ Polling :: ws2; idle_semaphore := sem; done := d |}
         {| unsubmitted := u; work_queue := [];
            workers := ws1 ++ Waiting :: ws2; idle_semaphore := S sem; done := d |}
| step_finish : forall u q ws1 i w ws2 sem d,
    step {| unsubmitted := u; work_queue := q;
            workers := ws1 ++ Busy i w :: ws2; idle_semaphore := sem; done := d |}
         {| unsubmitted := u; work_queue := q;
            workers := ws1 ++ Polling :: ws2; idle_semaphore := sem;
            done := d ++ [(i, run i w)] |}.

(** [steps n s s']: [s'] is reached from [s] in [n] transitions. *)
Inductive steps : nat -> state -> state -> Prop :=
| steps_O : forall s, steps 0 s s
| steps_S : forall n s s' s'', steps n s s' -> step s' s'' -> steps (S n) s s''.

Definition stuck (s : state) : Prop := forall s', ~ step s s'.

Definition result_of (x : nat * W) : nat * R := (fst x, run (fst x) (snd x)).

(** The results that the futures must hold in the end. *)
Definition results_of (ws : list W) : list (nat * R) :=
  map result_of (enumerate 0 ws).

(** The items that the workers are running. *)
Fixpoint in_progress (ws : list worker) : list (nat * W) :=
  match ws with
  | [] => []
  | Busy i w :: ws' => (i, w) :: in_progress ws'
  | _ :: ws' => in_progress ws'
  end.

(** The results held and those still to come. *)
Definition owed (s : state) : list (nat * R) :=
  map result_of (unsubmitted s) ++ map result_of (work_queue s)
  ++ map result_of (in_progress (workers s)) ++ done s.

(** What every reachable state satisfies. *)
Record invariant (ws0 : list W) (s : state) : Prop := {
  inv_threads : length (workers s) <= max_workers;
  inv_owed : Permutation (owed s) (results_of ws0);
  inv_served : workers s = [] -> work_queue s = [] /\ idle_semaphore s = 0
}.

Definition weight (w : worker) : nat :=
  match w with
  | Busy _ _ => 2
  | Polling => 1
  | Waiting => 0
  end.

(** A bound on the number of transitions still possible. *)
Definition measure (s : state) : nat :=
  5 * length (unsubmitted s) + 3 * length (work_queue s)
  + list_sum (map weight (workers s)).
End Executor.
End Pool.

(** ** The checkpoint file: [json.dump(metadata, f, indent=4)] and [json.load] *)

Definition quote : ascii := ascii_of_nat 34.
Definition backslash : ascii := "\"%char.
Definition newline : ascii := ascii_of_nat 10.

Definition hex_digit (n : nat) : ascii :=
  if n <? 10 then ascii_of_nat (48 + n) else ascii_of_nat (87 + n).

(** The replacement of one character in a string literal, [ensure_ascii]
    being on: the quote, the backslash and everything outside [ -~]. *)
Definition escape_char (c : ascii) : str :=
  if Ascii.eqb c quote then [backslash; quote]
  else if Ascii.eqb c backslash then [backslash; backslash]
  else if in_range 32 126 c then [c]
  else match code c with
       | 8 => [backslash; "b"%char]
       | 9 => [backslash; "t"%char]
       | 10 => [backslash; "n"%char]
       | 12 => [backslash; "f"%char]
       | 13 => [backslash; "r"%char]
       | n => [backslash; "u"%char; "0"%char; "0"%char;
               hex_digit (n / 16); hex_digit (n mod 16)]
       end.

Definition encode_str (s : str) : str :=
  [quote] ++ flat_map escape_char s ++ [quote].

Definition encode_item (kv : str * str) : str :=
  encode_str (fst kv) ++ lit ": " ++ encode_str (snd kv).

Definition newline_indent : str := newline :: lit "    ".

Fixpoint encode_items (items : list (str * str)) : str :=
  match items with
  | [] => []
  | [kv] => encode_item kv
  | kv :: rest => encode_item kv ++ lit "," ++ newline_indent ++ encode_items rest
  end.

(** The text that [json.dump(metadata, f, indent=4)] writes. *)
Definition json_dumps (metadata : checkpoint) : str :=
  match metadata with
  | [] => lit "{}"
  | _ => lit "{" ++ newline_indent ++ encode_items metadata ++ [newline] ++ lit "}"
  end.

(** The reader covers the documents of the checkpoint format: one object
    whose values are strings of code points below 256.  [None] stands for a
    text that is no JSON document or lies outside that format. *)
Inductive token := LBrace | RBrace | Colon | Comma | TStr (s : str).

Inductive lex_state :=
| Outside
| InString (acc : str)                      (* the characters read, last first *)
| Escape (acc : str)                        (* after a backslash *)
| Unicode (acc : str) (digits : list nat).  (* after [\u] *)

Definition is_ws (c : ascii) : bool :=
  match code c with
  | 32 | 9 | 10 | 13 => true
  | _ => false
  end.

Definition unescape (c : ascii) : option ascii :=
  if Ascii.eqb c quote then Some quote
  else if Ascii.eqb c backslash then Some backslash
  else if Ascii.eqb c "/" then Some "/"%char
  else if Ascii.eqb c "b" then Some (ascii_of_nat 8)
  else if Ascii.eqb c "f" then Some (ascii_of_nat 12)
  else if Ascii.eqb c "n" then Some (ascii_of_nat 10)
  else if Ascii.eqb c "r" then Some (ascii_of_nat 13)
  else if Ascii.eqb c "t" then Some (ascii_of_nat 9)
  else None.

Definition hex_val (c : ascii) : option nat :=
  if is_digit c then Some (code c - 48)
  else if in_range 97 102 c then Some (code c - 87)
  else if in_range 65 70 c then Some (code c - 55)
  else None.

Definition emit (t : token) (r : option (list token)) : option (list token) :=
  option_map (cons t) r.

Fixpoint hex_number (ds : list nat) (acc : nat) : nat :=
  match ds with
  | [] => acc
  | d :: ds' => hex_number ds' (16 * acc + d)
  end.

Fixpoint lex (st : lex_state) (s : str) : option (list token) :=
  match s with
  | [] => match st with
          | Outside => Some []
          | _ => None
          end
  | c :: rest =>
      match st with
      | Outside =>
          if is_ws c then lex Outside rest
          else if Ascii.eqb c "{" then emit LBrace (lex Outside rest)
          else if Ascii.eqb c "}" then emit RBrace (lex Outside rest)
          else if Ascii.eqb c ":" then emit Colon (lex Outside rest)
          else if Ascii.eqb c "," then emit Comma (lex Outside rest)
          else if Ascii.eqb c quote then lex (InString []) rest
          else None
      | InString acc =>
          if Ascii.eqb c quote then emit (TStr (rev acc)) (lex Outside rest)
          else if Ascii.eqb c backslash then lex (Escape acc) rest
          else if code c <? 32 then None
          else lex (InString (c :: acc)) rest
      | Escape acc =>
          match unescape c with
          | Some x => lex (InString (x :: acc)) rest
          | None => if Ascii.eqb c "u" then lex (Unicode acc []) rest else None
          end
      | Unicode acc ds =>
          match hex_val c with
          | None => None
          | Some v =>
              let ds' := ds ++ [v] in
              if length ds' =? 4
              then (if hex_number ds' 0 <? 256
                    then lex (InString (ascii_of_nat (hex_number ds' 0) :: acc)) rest
                    else None)
              else lex (Unicode acc ds') rest
          end
      end
  end.

(** The members after the opening brace; a key met again keeps its place
    and takes the later value. *)
Fixpoint parse_members (ts : list token) (d : checkpoint) : option checkpoint :=
  match ts with
  | TStr k :: Colon :: TStr v :: rest =>
      match rest with
      | [RBrace] => Some (dict_set d k v)
      | Comma :: rest' => parse_members rest' (dict_set d k v)
      | _ => None
      end
  | _ => None
  end.

Definition parse_object (ts : list token) : option checkpoint :=
  match ts with
  | [LBrace; RBrace] => Some []
  | LBrace :: rest => parse_members rest []
  | _ => None
  end.

Definition json_loads (s : str) : option checkpoint :=
  match lex Outside s with
  | Some ts => parse_object ts
  | None => None
  end.

(** [load_metadata] (lines 21-25); the argument is the content of
    [metadata.json], [None] when the file does not exist. *)
Definition load_metadata (file : option str) : exn + checkpoint :=
  match file with
  | None => inr []
  | Some text =>
      match json_loads text with
      | Some m => inr m
      | None => inl JSONDecodeError
      end
  end.

(** [save_metadata] (lines 28-30) run to its end: the file holds the text. *)
Definition save_metadata (metadata : checkpoint) : option str :=
  Some (json_dumps metadata).

(** [save_metadata] step by step.  [open(METADATA_FILE, "w")] creates or
    truncates the file; the text then reaches it front to back; [close]
    ends the call.  The second component is the file as it is on disk. *)
Inductive save_phase :=
| NotOpened
| Writing (pending : str)
| Closed.

Inductive save_step (metadata : checkpoint)
  : save_phase * option str -> save_phase * option str -> Prop :=
| save_open : forall file,
    save_step metadata (NotOpened, file) (Writing (json_dumps metadata), Some [])
| save_write : forall c pending text,
    save_step metadata (Writing (c :: pending), Some text)
                       (Writing pending, Some (text ++ [c]))
| save_close : forall file,
    save_step metadata (Writing [], file) (Closed, file).

(** The states that a call started on [file] goes through; an interruption
    leaves the disk as it is in one of them. *)
Inductive save_reaches (metadata : checkpoint) (file : option str)
  : save_phase * option str -> Prop :=
| save_start : save_reaches metadata file (NotOpened, file)
| save_next : forall s s',
    save_reaches metadata file s -> save_step metadata s s' ->
    save_reaches metadata file s'.

(** ** The run: [main] (lines 51-107) *)

Definition max_workers : nat := 5.

(** Everything outside the program that a run reads. *)
Record world := {
  metadata_file : option str;       (* [metadata.json], if it exists *)
  catalog : exn + list dataset;     (* [requests.get], [raise_for_status], [json()] *)
  task_io : nat -> io               (* the library calls of the i-th task submitted *)
}.

(** Lines 105-106. *)
Definition update_metadata (metadata : checkpoint) (to_download : list task)
    : checkpoint :=
  fold_left
    (fun m t => dict_set m (t_identifier t) (isoformat (t_modified t)))
    to_download metadata.

(** The function that the [i]-th [submit] hands to the pool. *)
Definition submitted (w : world) (i : nat) (t : task) : ingestion :=
  run_task (task_io w i) t.

(** The results that the futures hold once the pool is done, in the order of
    submission. *)
Definition run_pool (w : world) (to_download : list task) : list ingestion :=
  map snd (Pool.results_of (submitted w) to_download).

(** [future.result()] on every future: the first exception, if any. *)
Fixpoint first_raised (rs : list ingestion) : option exn :=
  match rs with
  | [] => None
  | r :: rs' =>
      match returned r with
      | inl e => Some e
      | inr _ => first_raised rs'
      end
  end.

Inductive outcome :=
| Raised (e : exn)                 (* the run ended on an exception *)
| NoNew                            (* line 95: nothing to download *)
| Saved (metadata : checkpoint).   (* line 107 reached *)

Record run := {
  ended : outcome;
  selected : list task;            (* [to_download] *)
  ingestions : list ingestion;     (* one per task submitted *)
  metadata_file_after : option str
}.

Definition stop (w : world) (o : outcome) (sel : list task) (rs : list ingestion) : run :=
  {| ended := o; selected := sel; ingestions := rs;
     metadata_file_after := metadata_file w |}.

Definition main (w : world) : run :=
  match load_metadata (metadata_file w) with
  | inl e => stop w (Raised e) [] []
  | inr metadata =>
      match catalog w with
      | inl e => stop w (Raised e) [] []
      | inr datasets =>
          match select_changes metadata datasets with
          | inl e => stop w (Raised e) [] []
          | inr ([], _) => stop w NoNew [] []
          | inr (to_download, _) =>
              let rs := run_pool w to_download in
              match first_raised rs with
              | Some e => stop w (Raised e) to_download rs
              | None =>
                  let metadata' := update_metadata metadata to_download in
                  {| ended := Saved metadata'; selected := to_download;
                     ingestions := rs;
                     metadata_file_after := save_metadata metadata' |}
              end
          end
      end
  end.

(** The watermark that a checkpoint file holds for an identifier. *)
Definition watermark (file : option str) (ident : str) : option str :=
  match load_metadata file with
  | inr m => dict_get m ident
  | inl _ => None
  end.

(** ** Auxiliary definitions used in the statements and proofs *)

(** Whether the month and the day of an ISO text are read back. *)
Definition month_day_check (m d : nat) : bool :=
  match first_month_day (re_month (pad2 m ++ [hyphen] ++ pad2 d)) with
  | Some (m', d', []) => (m' =? m) && (d' =? d)
  | _ => false
  end.

Definition is_emit (s : selection) : bool :=
  match s with
  | Emit _ => true
  | _ => false
  end.

(** The tasks of a selection that ran to its end. *)
Definition selected_tasks (metadata : checkpoint) (datasets : list dataset)
    : option (list task) :=
  match select_changes metadata datasets with
  | inr (ts, _) => Some ts
  | inl _ => None
  end.

(** The tasks that the descriptors contribute, one after the other. *)
Fixpoint emitted (metadata : checkpoint) (datasets : list dataset)
    : option (list task) :=
  match datasets with
  | [] => Some []
  | d :: rest =>
      match select_dataset metadata d with
      | Raise _ => None
      | Emit t => option_map (cons t) (emitted metadata rest)
      | _ => emitted metadata rest
      end
  end.

(** The scenario of the specification: dataset [A], theme [Hospitals],
    modified on 2024-03-01, one CSV distribution. *)
Definition csv_distribution (url : string) : distribution :=
  {| mediaType := Some (lit "text/csv"); downloadURL := Some (lit url) |}.

Definition dataset_A : dataset :=
  {| theme := Some [lit "Hospitals"];
     identifier := Some (lit "A");
     title := Some (lit "Hospital General Information");
     modified := Some (lit "2024-03-01");
     distributions := Some [csv_distribution "https://data.cms.gov/a.csv"] |}.

Definition task_A : task :=
  {| t_url := lit "https://data.cms.gov/a.csv";
     t_identifier := lit "A";
     t_modified := mkdate 2024 3 1;
     t_title := lit "Hospital General Information" |}.

Definition checkpoint_A : checkpoint := [(lit "A", lit "2024-03-01")].

Definition dataset_no_date : dataset :=
  {| theme := Some [lit "Hospitals"];
     identifier := Some (lit "A");
     title := Some (lit "Hospital General Information");
     modified := None;
     distributions := Some [csv_distribution "https://data.cms.gov/a.csv"] |}.

Definition checkpoint_corrupt : checkpoint := [(lit "A", lit "March 2024")].

Definition world_A (file : option str) (w : io) : world :=
  {| metadata_file := file; catalog := inr [dataset_A]; task_io := fun _ => w |}.

Definition io_ok : io :=
  {| read_csv := inr {| columns := [lit "Facility ID"; lit "Facility Name"];
                        rows := [[lit "010001"; lit "SOUTHEAST HEALTH"]] |};
     makedirs := None;
     to_csv := None |}.

Definition io_unreachable : io :=
  {| read_csv := inl HTTPError; makedirs := None; to_csv := None |}.

(** The tokens of the members of a checkpoint. *)
Fixpoint tokens_of (items : list (str * str)) : list token :=
  match items with
  | [] => []
  | [kv] => [TStr (fst kv); Colon; TStr (snd kv)]
  | kv :: rest => TStr (fst kv) :: Colon :: TStr (snd kv) :: Comma :: tokens_of rest
  end.

Definition is_rbrace (t : token) : bool :=
  match t with
  | RBrace => true
  | _ => false
  end.

Definition set_item (d : checkpoint) (kv : str * str) : checkpoint :=
  dict_set d (fst kv) (snd kv).

Definition rbrace : ascii := "}"%char.

Definition slash : ascii := "/"%char.

(** The theme filter of line 64 in words: some theme has [Hospitals] as a
    substring. *)
Definition about_hospitals (d : dataset) : Prop :=
  exists th a b, In th (get_or [] (theme d)) /\ th = a ++ lit "Hospitals" ++ b.

(** A descriptor on another topic, without identifier. *)
Definition dataset_payments : dataset :=
  {| theme := Some [lit "Payments"; lit "hospitals"];
     identifier := None;
     title := None;
     modified := Some (lit "2024-03-01");
     distributions := None |}.

(** A descriptor about hospitals that lacks its identifier, in a catalog
    after dataset [A]. *)
Definition dataset_anonymous : dataset :=
  {| theme := Some [lit "Hospitals"];
     identifier := None;
     title := Some (lit "Timely and Effective Care");
     modified := Some (lit "2024-04-01");
     distributions := Some [csv_distribution "https://data.cms.gov/b.csv"] |}.

Definition world_anonymous : world :=
  {| metadata_file := None;
     catalog := inr [dataset_A; dataset_anonymous];
     task_io := fun _ => io_ok |}.

(** The last task of [to_download] that bears an identifier. *)
Definition last_task_for (ident : str) (ts : list task) : option task :=
  find (fun t => str_eqb (t_identifier t) ident) (rev ts).



(** A descriptor that is passed over. *)
Definition quiet (s : selection) : Prop :=
  match s with
  | Skip | SkipInvalid _ => True
  | _ => False
  end.

(** The checkpoint file of dataset [A] cut in the middle of the date. *)
Definition truncated_A : str :=
  lit "{" ++ newline_indent ++ [quote] ++ lit "A" ++ [quote] ++ lit ": "
  ++ [quote] ++ lit "2024-03".


(** * Properties *)

(** ** NameNormalizer *)

Ltac each_char c := destruct c as [[] [] [] [] [] [] [] []].

Lemma lower_char_not_upper (c : ascii) : is_upper (lower_char c) = false.
Proof. each_char c; reflexivity. Qed.

Lemma not_alnum_snake (c : ascii) :
  is_upper c = false -> is_alnum c = true -> is_snake_char c = true.
Proof. each_char c; vm_compute; congruence. Qed.

Lemma snake_char_class (c : ascii) :
  is_snake_char c = true -> negb (is_alnum c) = is_underscore c.
Proof. each_char c; vm_compute; congruence. Qed.

Lemma snake_char_lower (c : ascii) : is_snake_char c = true -> lower_char c = c.
Proof. each_char c; vm_compute; congruence. Qed.

Lemma is_underscore_eq (c : ascii) : is_underscore c = true -> c = underscore.
Proof. apply Ascii.eqb_eq. Qed.

Lemma underscore_snake (c : ascii) : is_underscore c = true -> is_snake_char c = true.
Proof. intros H. apply is_underscore_eq in H. subst. reflexivity. Qed.

Lemma lower_no_upper (s : str) : Forall (fun c => is_upper c = false) (lower s).
Proof.
  unfold lower. induction s as [|c s IH]; simpl; constructor; auto.
  apply lower_char_not_upper.
Qed.

Section Runs.
Variable p : ascii -> bool.

(** The characters of the result are those kept and the underscore. *)
Lemma re_sub_runs_chars (q : ascii -> bool) (b : bool) (s : str) :
  q underscore = true ->
  Forall (fun c => p c = false -> q c = true) s ->
  Forall (fun c => q c = true) (re_sub_runs p [underscore] b s).
Proof.
  intros Hu H. revert b. induction H as [|c s Hc _ IH]; intros b; simpl.
  - constructor.
  - destruct (p c) eqn:E.
    + destruct b; simpl; [apply IH | constructor; [exact Hu | apply IH]].
    + constructor; [apply Hc; reflexivity | apply IH].
Qed.

(** A string without runs to replace is left as it is. *)
Lemma re_sub_runs_fixed (b : bool) (s : str) :
  Forall (fun c => p c = is_underscore c) s ->
  no_adjacent is_underscore s = true ->
  (b = true -> head_is is_underscore s = false) ->
  re_sub_runs p [underscore] b s = s.
Proof.
  intros H. revert b. induction H as [|c s Hc _ IH]; intros b Hadj Hb; simpl.
  - reflexivity.
  - assert (Hadj' : no_adjacent is_underscore s = true).
    { simpl in Hadj. destruct s; [reflexivity|].
      apply andb_true_iff in Hadj. apply Hadj. }
    rewrite Hc. destruct (is_underscore c) eqn:E.
    + destruct b; [simpl in Hb; rewrite Hb in E by reflexivity; discriminate|].
      simpl. rewrite (is_underscore_eq _ E). f_equal.
      apply IH; [exact Hadj'|]. intros _.
      simpl in Hadj. destruct s as [|c' s']; [reflexivity|].
      simpl. apply andb_true_iff in Hadj. destruct Hadj as [Hadj _].
      rewrite E in Hadj. simpl in Hadj. now destruct (is_underscore c').
    + f_equal. apply IH; [exact Hadj'|discriminate].
Qed.
End Runs.

(** After the second substitution no two underscores are adjacent. *)
Lemma collapse_single (b : bool) (s : str) :
  no_adjacent is_underscore (re_sub_runs is_underscore [underscore] b s) = true
  /\ (b = true ->
      head_is is_underscore (re_sub_runs is_underscore [underscore] b s) = false).
Proof.
  revert b. induction s as [|c s IH]; intros b; simpl.
  - split; reflexivity.
  - destruct (is_underscore c) eqn:E.
    + destruct (IH true) as [IH1 IH2]. specialize (IH2 eq_refl).
      destruct b; simpl.
      * split; [exact IH1 | intros _; exact IH2].
      * split; [|discriminate].
        destruct (re_sub_runs is_underscore [underscore] true s) as [|c' r] eqn:Er;
          [reflexivity|].
        simpl in IH2. cbn [app no_adjacent]. cbn [no_adjacent] in IH1.
        rewrite IH2 in *. exact IH1.
    + destruct (IH false) as [IH1 _]. split.
      * destruct (re_sub_runs is_underscore [underscore] false s) as [|c' r] eqn:Er;
          [reflexivity|].
        cbn [no_adjacent] in *. rewrite E. exact IH1.
      * intros _. exact E.
Qed.

Section Strip.
Variable p : ascii -> bool.

Lemma lstrip_split (s : str) : exists pre, s = pre ++ lstrip p s.
Proof.
  induction s as [|c s [pre IH]]; simpl.
  - exists []. reflexivity.
  - destruct (p c).
    + exists (c :: pre). simpl. f_equal. exact IH.
    + exists []. reflexivity.
Qed.

Lemma lstrip_head (s : str) : head_is p (lstrip p s) = false.
Proof.
  induction s as [|c s IH]; simpl; [reflexivity|].
  destruct (p c) eqn:E; [exact IH | exact E].
Qed.

Lemma lstrip_fixed (s : str) : head_is p s = false -> lstrip p s = s.
Proof. destruct s as [|c s]; simpl; [reflexivity|]. now intros ->. Qed.

Lemma rstrip_split (s : str) : exists suf, s = rstrip p s ++ suf.
Proof.
  unfold rstrip. destruct (lstrip_split (rev s)) as [pre H].
  exists (rev pre). rewrite <- rev_app_distr, <- H. symmetry. apply rev_involutive.
Qed.

Lemma rstrip_last (s : str) : last_is p (rstrip p s) = false.
Proof. unfold last_is, rstrip. rewrite rev_involutive. apply lstrip_head. Qed.

Lemma rstrip_fixed (s : str) : last_is p s = false -> rstrip p s = s.
Proof.
  unfold last_is, rstrip. intros H. rewrite lstrip_fixed by exact H.
  apply rev_involutive.
Qed.

Lemma rstrip_head (s : str) : head_is p s = false -> head_is p (rstrip p s) = false.
Proof.
  intros H. destruct (rstrip_split s) as [suf E].
  destruct (rstrip p s) as [|c r]; [reflexivity|].
  rewrite E in H. exact H.
Qed.

Lemma no_adjacent_app_l (s t : str) :
  no_adjacent p (s ++ t) = true -> no_adjacent p s = true.
Proof.
  induction s as [|c s IH]; [reflexivity|].
  destruct s as [|c' s']; [reflexivity|].
  simpl. rewrite !andb_true_iff. intros [H1 H2]. split; [exact H1|].
  apply IH. exact H2.
Qed.

Lemma no_adjacent_app_r (s t : str) :
  no_adjacent p (s ++ t) = true -> no_adjacent p t = true.
Proof.
  induction s as [|c s IH]; [trivial|].
  intros H. apply IH. simpl in H.
  destruct (s ++ t); [reflexivity|].
  apply andb_true_iff in H. apply H.
Qed.
End Strip.

Lemma strip_snake (s : str) :
  Forall (fun c => is_snake_char c = true) s ->
  no_adjacent is_underscore s = true ->
  snake (strip is_underscore s).
Proof.
  intros Hc Ha. unfold strip.
  destruct (lstrip_split is_underscore s) as [pre E1].
  destruct (rstrip_split is_underscore (lstrip is_underscore s)) as [suf E2].
  assert (Hc1 : Forall (fun c => is_snake_char c = true) (lstrip is_underscore s)).
  { rewrite E1 in Hc. apply Forall_app in Hc. apply Hc. }
  assert (Ha1 : no_adjacent is_underscore (lstrip is_underscore s) = true).
  { rewrite E1 in Ha. apply no_adjacent_app_r in Ha. exact Ha. }
  constructor.
  - rewrite E2 in Hc1. apply Forall_app in Hc1. apply Hc1.
  - rewrite E2 in Ha1. apply no_adjacent_app_l in Ha1. exact Ha1.
  - apply rstrip_head, lstrip_head.
  - apply rstrip_last.
Qed.

Lemma to_snake_case_snake (s : str) : snake (to_snake_case s).
Proof.
  unfold to_snake_case, re_sub_plus. apply strip_snake.
  - apply re_sub_runs_chars; [reflexivity|].
    apply Forall_impl with (P := fun c => is_snake_char c = true); [auto|].
    apply re_sub_runs_chars; [reflexivity|].
    apply Forall_impl with (P := fun c => is_upper c = false);
      [|apply lower_no_upper].
    intros c Hu Hn. apply not_alnum_snake; [exact Hu|].
    now apply negb_false_iff.
  - apply collapse_single.
Qed.

Lemma to_snake_case_fixed (s : str) : snake s -> to_snake_case s = s.
Proof.
  intros [Hc Ha Hh Hl]. unfold to_snake_case, re_sub_plus.
  assert (El : lower s = s).
  { unfold lower. clear -Hc. induction Hc as [|c s H _ IH]; simpl; [reflexivity|].
    now rewrite snake_char_lower, IH. }
  rewrite El.
  rewrite (@re_sub_runs_fixed (fun c => negb (is_alnum c)) false s); [|
    apply Forall_impl with (2 := Hc); intros c H; now apply snake_char_class
    | exact Ha | discriminate].
  rewrite (@re_sub_runs_fixed is_underscore false s); [|
    apply Forall_impl with (2 := Hc); reflexivity | exact Ha | discriminate].
  unfold strip. rewrite (lstrip_fixed _ _ Hh). apply rstrip_fixed. exact Hl.
Qed.

(** C5. [to_snake_case] is total and idempotent, and its result consists of
    lowercase letters, digits and single underscores, none of them first or
    last and no two of them adjacent. *)
Theorem to_snake_case_idempotent_total (s : str) :
  (exists r, to_snake_case s = r)
  /\ to_snake_case (to_snake_case s) = to_snake_case s
  /\ Forall (fun c => is_lower c || is_digit c || is_underscore c = true)
            (to_snake_case s)
  /\ no_adjacent is_underscore (to_snake_case s) = true
  /\ head_is is_underscore (to_snake_case s) = false
  /\ last_is is_underscore (to_snake_case s) = false.
Proof.
  pose proof (to_snake_case_snake s) as H.
  split; [eexists; reflexivity|].
  split; [apply to_snake_case_fixed; exact H|].
  destruct H as [Hc Ha Hh Hl]. auto.
Qed.

(** ** Dates *)

Ltac reflect_arith :=
  repeat match goal with
    | H : _ && _ = true |- _ => apply andb_true_iff in H; destruct H
    | H : _ || _ = true |- _ => apply orb_true_iff in H
    | H : negb _ = true |- _ => apply negb_true_iff in H
    | H : _ && _ = false |- _ => apply andb_false_iff in H
    | H : _ || _ = false |- _ => apply orb_false_iff in H; destruct H
    | H : negb _ = false |- _ => apply negb_false_iff in H
    | H : (_ <=? _) = true |- _ => apply Nat.leb_le in H
    | H : (_ <=? _) = false |- _ => apply Nat.leb_gt in H
    | H : (_ <? _) = true |- _ => apply Nat.ltb_lt in H
    | H : (_ <? _) = false |- _ => apply Nat.ltb_ge in H
    | H : (_ =? _) = true |- _ => apply Nat.eqb_eq in H
    | H : (_ =? _) = false |- _ => apply Nat.eqb_neq in H
    end.

(** [date_leb] is the lexicographic order on year, month and day. *)
Lemma date_leb_spec (a b : date) :
  date_leb a b = true <->
  year a < year b
  \/ (year a = year b
      /\ (month a < month b \/ (month a = month b /\ day a <= day b))).
Proof.
  unfold date_leb.
  rewrite !orb_true_iff, !andb_true_iff, !orb_true_iff, !andb_true_iff.
  rewrite !Nat.ltb_lt, !Nat.eqb_eq, Nat.leb_le. tauto.
Qed.

Lemma date_leb_refl (a : date) : date_leb a a = true.
Proof. apply date_leb_spec. lia. Qed.



Lemma code_ascii_of_nat (n : nat) : n < 256 -> code (ascii_of_nat n) = n.
Proof. apply nat_ascii_embedding. Qed.

Lemma digit_char_digit (n : nat) : is_digit (digit_char n) = true.
Proof.
  unfold is_digit, in_range, digit_char.
  pose proof (Nat.mod_upper_bound n 10 ltac:(lia)).
  rewrite code_ascii_of_nat by lia.
  apply andb_true_iff. split; apply Nat.leb_le; lia.
Qed.

Lemma digit_char_val (n : nat) : digit_val (digit_char n) = n mod 10.
Proof.
  unfold digit_val, digit_char.
  pose proof (Nat.mod_upper_bound n 10 ltac:(lia)).
  rewrite code_ascii_of_nat by lia. lia.
Qed.

Lemma digit_val_bound (c : ascii) : is_digit c = true -> digit_val c <= 9.
Proof. unfold is_digit, in_range, digit_val. intros H. reflect_arith. lia. Qed.

Lemma re_year_pad4 (y : nat) (rest : str) :
  y < 10 * 1000 -> re_year (pad4 y ++ rest) = Some (y, rest).
Proof.
  intros Hy. unfold pad4. cbn [app re_year].
  rewrite !digit_char_digit, !digit_char_val. cbn [andb].
  do 2 f_equal.
  pose proof (Nat.div_mod_eq y 10). pose proof (Nat.div_mod_eq (y / 10) 10).
  pose proof (Nat.div_mod_eq (y / 100) 10).
  replace (y / 100) with (y / 10 / 10) in * by (rewrite Nat.Div0.div_div; reflexivity).
  replace (y / 1000) with (y / 10 / 10 / 10)
    by (rewrite !Nat.Div0.div_div; reflexivity).
  assert ((y / 10 / 10 / 10) mod 10 = y / 10 / 10 / 10).
  { apply Nat.mod_small. apply Nat.Div0.div_lt_upper_bound.
    apply Nat.Div0.div_lt_upper_bound. apply Nat.Div0.div_lt_upper_bound. lia. }
  lia.
Qed.

Lemma re_year_bound (s rest : str) (y : nat) :
  re_year s = Some (y, rest) -> y < 10 * 1000.
Proof.
  destruct s as [|a [|b [|c [|d r]]]]; try discriminate. simpl.
  destruct (is_digit a) eqn:Ea, (is_digit b) eqn:Eb, (is_digit c) eqn:Ec,
    (is_digit d) eqn:Ed; try discriminate.
  simpl. intros H. injection H as <- _.
  apply digit_val_bound in Ea, Eb, Ec, Ed. lia.
Qed.

Lemma month_day_checked :
  forallb (fun m => forallb (month_day_check m) (seq 1 31)) (seq 1 12) = true.
Proof. vm_compute. reflexivity. Qed.

Lemma first_month_day_pad2 (m d : nat) :
  1 <= m <= 12 -> 1 <= d <= 31 ->
  first_month_day (re_month (pad2 m ++ [hyphen] ++ pad2 d)) = Some (m, d, []).
Proof.
  intros Hm Hd. pose proof month_day_checked as H.
  rewrite forallb_forall in H. specialize (H m).
  rewrite forallb_forall in H.
  assert (Hc : month_day_check m d = true).
  { apply H; apply in_seq; lia. }
  unfold month_day_check in Hc.
  destruct (first_month_day _) as [[[m' d'] [|? ?]]|]; try discriminate.
  reflect_arith. subst. reflexivity.
Qed.

Lemma days_in_month_bound (y m : nat) : days_in_month y m <= 31.
Proof.
  unfold days_in_month.
  destruct m as [|[|[|[|[|[|[|[|[|[|[|[|m]]]]]]]]]]]]; try lia.
  destruct (is_leap y); lia.
Qed.

(** A date that [strptime] returns passed the checks of the constructor. *)
Lemma strptime_valid (s : str) (d : date) :
  strptime s = Some d -> valid_date d = true /\ year d < 10 * 1000.
Proof.
  unfold strptime, re_match_ymd.
  destruct (re_year s) as [[y r]|] eqn:Ey; [|discriminate].
  destruct (expect hyphen r) as [r'|]; [|discriminate].
  destruct (first_month_day (re_month r')) as [[[m dd] r'']|]; [|discriminate].
  destruct r''; [|discriminate].
  destruct (valid_date (mkdate y m dd)) eqn:Ev; [|discriminate].
  intros H. injection H as <-. split; [exact Ev|].
  simpl. eapply re_year_bound. exact Ey.
Qed.

(** Reading the ISO text of a date gives the date back. *)
Lemma strptime_isoformat (d : date) :
  valid_date d = true -> year d < 10 * 1000 -> strptime (isoformat d) = Some d.
Proof.
  intros Hv Hy. destruct d as [y m dd]. simpl in Hy.
  pose proof Hv as Hv'. unfold valid_date in Hv'. cbn [year month day] in Hv'.
  reflect_arith.
  pose proof (days_in_month_bound y m).
  unfold strptime, re_match_ymd, isoformat. cbn [year month day].
  rewrite re_year_pad4 by exact Hy.
  cbn [app expect hyphen]. rewrite Ascii.eqb_refl.
  change (pad2 m ++ hyphen :: pad2 dd) with (pad2 m ++ [hyphen] ++ pad2 dd).
  rewrite first_month_day_pad2 by lia.
  rewrite Hv. reflexivity.
Qed.

(** A text that parses as a date is not empty. *)
Lemma strptime_nonempty (s : str) (d : date) : strptime s = Some d -> s <> [].
Proof. intros H ->. discriminate. Qed.

(** ** Change Selector *)

Lemma truthy_some (o : option str) (s : str) :
  truthy o = Some s <-> o = Some s /\ s <> [].
Proof.
  destruct o as [[|c r]|]; simpl; split; try discriminate.
  - intros [H Hn]. injection H as <-. now contradiction Hn.
  - intros H. injection H as <-. split; [reflexivity|discriminate].
  - intros [H _]. exact H.
  - intros [H _]. discriminate.
Qed.

Lemma truthy_none (o : option str) :
  truthy o = None <-> o = None \/ o = Some [].
Proof.
  destruct o as [[|c r]|]; simpl; split; auto; try discriminate.
  intros [H|H]; discriminate.
Qed.

Lemma str_eqb_eq (a b : str) : str_eqb a b = true <-> a = b.
Proof.
  unfold str_eqb. destruct (list_eq_dec ascii_dec a b); split; auto; discriminate.
Qed.

Lemma str_eqb_refl (a : str) : str_eqb a a = true.
Proof. now apply str_eqb_eq. Qed.

Lemma str_eqb_neq (a b : str) : str_eqb a b = false <-> a <> b.
Proof.
  rewrite <- str_eqb_eq. destruct (str_eqb a b); split; congruence.
Qed.

Lemma first_csv_some (ds : list distribution) (dist : distribution) :
  first_csv ds = Some dist -> In dist ds /\ mediaType dist = Some (lit "text/csv").
Proof.
  induction ds as [|x ds IH]; cbn [first_csv In]; [discriminate|].
  destruct (mediaType x) as [mt|] eqn:Em.
  - destruct (str_eqb mt (lit "text/csv")) eqn:E.
    + apply str_eqb_eq in E. subst mt. intros H. injection H as <-. auto.
    + intros H. destruct (IH H). auto.
  - intros H. destruct (IH H). auto.
Qed.

Lemma first_csv_none (ds : list distribution) :
  Forall (fun dist => mediaType dist <> Some (lit "text/csv")) ds ->
  first_csv ds = None.
Proof.
  induction 1 as [|x ds Hx _ IH]; cbn [first_csv]; [reflexivity|].
  destruct (mediaType x) as [mt|]; [|exact IH].
  destruct (str_eqb mt (lit "text/csv")) eqn:E; [|exact IH].
  apply str_eqb_eq in E. subst mt. now contradiction Hx.
Qed.

Lemma emit_csv_inv (ident ttl : str) (md : date) (d : dataset) (t : task) :
  emit_csv ident ttl md d = Emit t ->
  t_identifier t = ident /\ t_modified t = md /\ t_title t = ttl
  /\ exists dist, first_csv (get_or [] (distributions d)) = Some dist
                  /\ downloadURL dist = Some (t_url t).
Proof.
  unfold emit_csv.
  destruct (first_csv _) as [dist|]; [|discriminate].
  destruct (downloadURL dist) as [url|] eqn:Eu; [|discriminate].
  intros H. injection H as <-. simpl. repeat split. exists dist. auto.
Qed.

(** Everything that holds when a descriptor yields a task. *)
Lemma select_dataset_emit_inv (m : checkpoint) (d : dataset) (t : task) :
  select_dataset m d = Emit t ->
  existsb (contains (lit "Hospitals")) (get_or [] (theme d)) = true
  /\ identifier d = Some (t_identifier t)
  /\ t_title t = get_or (lit "untitled") (title d)
  /\ (exists ms, modified d = Some ms /\ strptime ms = Some (t_modified t))
  /\ (forall w, dict_get m (t_identifier t) = Some w -> w <> [] ->
      exists ld, strptime w = Some ld /\ date_ltb ld (t_modified t) = true)
  /\ (exists dist, first_csv (get_or [] (distributions d)) = Some dist
                   /\ downloadURL dist = Some (t_url t)).
Proof.
  unfold select_dataset.
  destruct (existsb _ _) eqn:Eh; [|discriminate].
  destruct (identifier d) as [ident|] eqn:Ei; [|discriminate].
  destruct (truthy (modified d)) as [ms|] eqn:Em; [|discriminate].
  apply truthy_some in Em. destruct Em as [Em _].
  destruct (strptime ms) as [md|] eqn:Ep; [|discriminate].
  destruct (truthy (dict_get m ident)) as [w|] eqn:Ew.
  - apply truthy_some in Ew. destruct Ew as [Ew _].
    destruct (strptime w) as [ld|] eqn:El; [|discriminate].
    destruct (date_leb md ld) eqn:Ec; [discriminate|].
    intros H. apply emit_csv_inv in H.
    destruct H as (-> & -> & -> & Hd).
    repeat split; auto.
    + exists ms. auto.
    + intros w' Hw' _. rewrite Ew in Hw'. injection Hw' as <-.
      exists ld. split; [exact El|]. unfold date_ltb. now rewrite Ec.
  - apply truthy_none in Ew.
    intros H. apply emit_csv_inv in H.
    destruct H as (-> & -> & -> & Hd).
    repeat split; auto.
    + exists ms. auto.
    + intros w' Hw' Hn. destruct Ew as [Ew|Ew]; rewrite Ew in Hw';
        [discriminate|]. injection Hw' as <-. now contradiction Hn.
Qed.

Lemma select_loop_emitted (m : checkpoint) (ds : list dataset)
    (acc : list task) (out : list printed) :
  match select_loop m ds acc out with
  | inr (ts, _) => Some ts
  | inl _ => None
  end = option_map (app acc) (emitted m ds).
Proof.
  revert acc out. induction ds as [|d ds IH]; intros acc out; simpl.
  - now rewrite app_nil_r.
  - destruct (select_dataset m d) as [| |t|e]; try apply IH; [|reflexivity].
    rewrite IH. destruct (emitted m ds) as [ts|]; simpl; [|reflexivity].
    now rewrite <- app_assoc.
Qed.

Lemma selected_tasks_emitted (m : checkpoint) (ds : list dataset) :
  selected_tasks m ds = emitted m ds.
Proof.
  unfold selected_tasks, select_changes. rewrite select_loop_emitted.
  now destruct (emitted m ds).
Qed.

(** A descriptor that yields no task can be left out of the catalog: the
    tasks selected are the same. *)
Lemma selected_tasks_without (m : checkpoint) (d : dataset) :
  is_emit (select_dataset m d) = false ->
  forall ds1 ds2 ts,
    selected_tasks m (ds1 ++ d :: ds2) = Some ts ->
    selected_tasks m (ds1 ++ ds2) = Some ts.
Proof.
  intros Hd ds1 ds2. rewrite !selected_tasks_emitted.
  induction ds1 as [|x ds1 IH]; intros ts; simpl.
  - destruct (select_dataset m d); try discriminate; auto.
  - destruct (select_dataset m x); auto.
    destruct (emitted m (ds1 ++ d :: ds2)) as [ts'|]; [|discriminate].
    rewrite (IH ts' eq_refl). auto.
Qed.

(** Every task selected comes from a descriptor of the catalog. *)
Lemma selected_tasks_from (m : checkpoint) (ds : list dataset) (ts : list task) :
  selected_tasks m ds = Some ts ->
  forall t, In t ts -> exists d, In d ds /\ select_dataset m d = Emit t.
Proof.
  rewrite selected_tasks_emitted. revert ts.
  induction ds as [|x ds IH]; simpl; intros ts.
  - intros H. injection H as <-. contradiction.
  - destruct (select_dataset m x) as [| |t0|e] eqn:Ex; try discriminate.
    + intros H t Ht. destruct (IH ts H t Ht) as (d & ? & ?). eauto.
    + intros H t Ht. destruct (IH ts H t Ht) as (d & ? & ?). eauto.
    + destruct (emitted m ds) as [ts'|]; [|discriminate].
      simpl. intros H. injection H as <-. intros t [<-|Ht].
      * exists x. auto.
      * destruct (IH ts' eq_refl t Ht) as (d & ? & ?). eauto.
Qed.

(** C3. A descriptor whose identifier has a stored watermark yields a task
    only if its parsed modified date is strictly greater than the watermark;
    when the date is less than or equal to the watermark the descriptor is
    skipped and contributes nothing to the selection. *)
Theorem selector_strictly_newer
    (m : checkpoint) (d : dataset) (ident w : str) (ld : date)
    (Hid : identifier d = Some ident)
    (Hget : dict_get m ident = Some w)
    (Hw : strptime w = Some ld) :
  (forall t, select_dataset m d = Emit t ->
     exists ms, modified d = Some ms /\ strptime ms = Some (t_modified t)
                /\ date_ltb ld (t_modified t) = true)
  /\ (forall ms md, modified d = Some ms -> strptime ms = Some md ->
        date_leb md ld = true ->
        select_dataset m d = Skip
        /\ forall ds1 ds2 ts,
             selected_tasks m (ds1 ++ d :: ds2) = Some ts ->
             selected_tasks m (ds1 ++ ds2) = Some ts).
Proof.
  split.
  - intros t Ht. apply select_dataset_emit_inv in Ht.
    destruct Ht as (_ & Hi & _ & (ms & Hm & Hp) & Hlast & _).
    rewrite Hid in Hi. injection Hi as ->.
    destruct (Hlast w Hget (strptime_nonempty Hw)) as (ld' & Hld & Hlt).
    rewrite Hw in Hld. injection Hld as <-.
    exists ms. auto.
  - intros ms md Hm Hp Hle.
    assert (Hs : select_dataset m d = Skip).
    { unfold select_dataset. destruct (existsb _ _); [|reflexivity].
      rewrite Hid.
      assert (Et : truthy (modified d) = Some ms).
      { apply truthy_some. split; [exact Hm | exact (strptime_nonempty Hp)]. }
      rewrite Et, Hp.
      assert (Ew : truthy (dict_get m ident) = Some w).
      { apply truthy_some. split; [exact Hget | exact (strptime_nonempty Hw)]. }
      rewrite Ew, Hw, Hle. reflexivity. }
    split; [exact Hs|]. apply selected_tasks_without. now rewrite Hs.
Qed.

Lemma selector_strictly_newer_witness :
  identifier dataset_A = Some (lit "A")
  /\ dict_get checkpoint_A (lit "A") = Some (lit "2024-03-01")
  /\ strptime (lit "2024-03-01") = Some (mkdate 2024 3 1)
  /\ (forall ms md, modified dataset_A = Some ms -> strptime ms = Some md ->
        date_leb md (mkdate 2024 3 1) = true ->
        select_dataset checkpoint_A dataset_A = Skip).
Proof.
  split; [reflexivity|]. split; [reflexivity|]. split; [reflexivity|].
  intros ms md H1 H2 H3.
  apply (proj2 (@selector_strictly_newer checkpoint_A dataset_A (lit "A")
                  (lit "2024-03-01") (mkdate 2024 3 1) eq_refl eq_refl eq_refl)
           ms md H1 H2 H3).
Defined.

(** C4. A descriptor whose modified field is absent, or does not parse as a
    date, or none of whose distributions is [text/csv], yields no task and
    contributes nothing to the selection. *)
Theorem selector_skips_ineligible (m : checkpoint) (d : dataset)
    (H : modified d = None
         \/ (exists ms, modified d = Some ms /\ strptime ms = None)
         \/ Forall (fun dist => mediaType dist <> Some (lit "text/csv"))
                   (get_or [] (distributions d))) :
  (forall t, select_dataset m d <> Emit t)
  /\ (forall ds1 ds2 ts,
        selected_tasks m (ds1 ++ d :: ds2) = Some ts ->
        selected_tasks m (ds1 ++ ds2) = Some ts).
Proof.
  assert (Hn : forall t, select_dataset m d <> Emit t).
  { intros t Ht. apply select_dataset_emit_inv in Ht.
    destruct Ht as (_ & _ & _ & (ms & Hm & Hp) & _ & (dist & Hd & _)).
    destruct H as [H|[(ms' & Hm' & Hp')|H]].
    - congruence.
    - congruence.
    - rewrite (first_csv_none H) in Hd. discriminate. }
  split; [exact Hn|]. apply selected_tasks_without.
  destruct (select_dataset m d) as [| |t|e] eqn:E; try reflexivity.
  now contradiction (Hn t).
Qed.

Lemma selector_skips_ineligible_witness :
  modified dataset_no_date = None
  /\ forall t, select_dataset [] dataset_no_date <> Emit t.
Proof.
  split; [reflexivity|].
  apply (proj1 (@selector_skips_ineligible [] dataset_no_date (or_introl eq_refl))).
Defined.

(** C10, as stated, fails: an empty stored watermark does not parse as a
    date, yet the descriptor is selected, because the empty string counts as
    no watermark at all (line 75). *)
Lemma corrupt_watermark_empty_selected :
  ~ (forall (m : checkpoint) (d : dataset) (ident w ms : str) (md : date),
       identifier d = Some ident -> modified d = Some ms ->
       strptime ms = Some md ->
       dict_get m ident = Some w -> strptime w = None ->
       forall t, select_dataset m d <> Emit t).
Proof.
  intros H.
  apply (H [(lit "A", [])] dataset_A (lit "A") [] (lit "2024-03-01")
           (mkdate 2024 3 1) eq_refl eq_refl eq_refl eq_refl eq_refl task_A).
  vm_compute. reflexivity.
Qed.

(** ** The checkpoint update *)

Lemma dict_get_set (V : Type) (d : pydict V) (k k' : str) (v : V) :
  dict_get (dict_set d k v) k' = if str_eqb k k' then Some v else dict_get d k'.
Proof.
  induction d as [|[k0 v0] d IH]; simpl.
  - reflexivity.
  - destruct (str_eqb k0 k) eqn:E0; simpl.
    + apply str_eqb_eq in E0. subst k0. now destruct (str_eqb k k').
    + rewrite IH. destruct (str_eqb k0 k') eqn:E1; [|reflexivity].
      apply str_eqb_eq in E1. subst k0. now rewrite (proj2 (str_eqb_neq k k')) by
        (apply str_eqb_neq in E0; congruence).
Qed.

(** An identifier that no task bears keeps its watermark, or stays absent. *)
Lemma update_metadata_other (ts : list task) (m : checkpoint) (ident : str) :
  (forall t, In t ts -> t_identifier t <> ident) ->
  dict_get (update_metadata m ts) ident = dict_get m ident.
Proof.
  unfold update_metadata. revert m.
  induction ts as [|t ts IH]; intros m H; simpl; [reflexivity|].
  rewrite IH by (intros t' Ht'; apply H; now right).
  rewrite dict_get_set.
  rewrite (proj2 (str_eqb_neq _ _)); [reflexivity|]. apply H. now left.
Qed.

(** The identifier of a task takes the ISO text of the task's date. *)
Lemma update_metadata_task (ts : list task) (m : checkpoint) (t : task) :
  NoDup (map t_identifier ts) -> In t ts ->
  dict_get (update_metadata m ts) (t_identifier t) = Some (isoformat (t_modified t)).
Proof.
  unfold update_metadata. revert m.
  induction ts as [|t0 ts IH]; intros m Hnd Hin; [contradiction|].
  simpl in Hnd. inversion Hnd as [|? ? Hnot Hnd']; subst.
  destruct Hin as [->|Hin]; simpl.
  - fold (update_metadata (dict_set m (t_identifier t) (isoformat (t_modified t))) ts).
    rewrite update_metadata_other.
    + rewrite dict_get_set, str_eqb_refl. reflexivity.
    + intros t' Ht' E. apply Hnot. rewrite <- E. now apply in_map.
  - now apply IH.
Qed.

(** C10, amended.  When the stored watermark of a descriptor's identifier is
    a non-empty string that does not parse as a date, a descriptor with a
    well-formed modified date is skipped; no task of any selection bears
    that identifier, and the update of the checkpoint leaves the corrupt
    value in place. *)
Theorem corrupt_watermark_skips
    (m : checkpoint) (d : dataset) (ident w ms : str) (md : date)
    (Hid : identifier d = Some ident)
    (Hm : modified d = Some ms)
    (Hp : strptime ms = Some md)
    (Hget : dict_get m ident = Some w)
    (Hw : strptime w = None)
    (Hne : w <> []) :
  (forall t, select_dataset m d <> Emit t)
  /\ (forall ds1 ds2 ts,
        selected_tasks m (ds1 ++ d :: ds2) = Some ts ->
        selected_tasks m (ds1 ++ ds2) = Some ts)
  /\ (forall ds ts, selected_tasks m ds = Some ts ->
        (forall t, In t ts -> t_identifier t <> ident)
        /\ dict_get (update_metadata m ts) ident = Some w).
Proof.
  assert (Hblock : forall d' t, select_dataset m d' = Emit t -> t_identifier t <> ident).
  { intros d' t Ht E. apply select_dataset_emit_inv in Ht.
    destruct Ht as (_ & _ & _ & _ & Hlast & _).
    rewrite E in Hlast. destruct (Hlast w Hget Hne) as (ld & Hld & _).
    congruence. }
  assert (Hn : forall t, select_dataset m d <> Emit t).
  { intros t Ht. apply (Hblock d t Ht).
    apply select_dataset_emit_inv in Ht. destruct Ht as (_ & Hi & _). congruence. }
  split; [exact Hn|]. split.
  - apply selected_tasks_without.
    destruct (select_dataset m d) as [| |t|e] eqn:E; try reflexivity.
    now contradiction (Hn t).
  - intros ds ts Hts.
    assert (Hall : forall t, In t ts -> t_identifier t <> ident).
    { intros t Hin. destruct (selected_tasks_from _ _ Hts t Hin) as (d' & _ & Hd').
      exact (Hblock d' t Hd'). }
    split; [exact Hall|]. rewrite update_metadata_other by exact Hall. exact Hget.
Qed.

Lemma corrupt_watermark_skips_witness :
  identifier dataset_A = Some (lit "A")
  /\ modified dataset_A = Some (lit "2024-03-01")
  /\ strptime (lit "2024-03-01") = Some (mkdate 2024 3 1)
  /\ dict_get checkpoint_corrupt (lit "A") = Some (lit "March 2024")
  /\ strptime (lit "March 2024") = None
  /\ lit "March 2024" <> []
  /\ forall t, select_dataset checkpoint_corrupt dataset_A <> Emit t.
Proof.
  repeat (split; [first [reflexivity | discriminate]|]).
  apply (proj1 (@corrupt_watermark_skips checkpoint_corrupt dataset_A (lit "A")
                  (lit "March 2024") (lit "2024-03-01") (mkdate 2024 3 1)
                  eq_refl eq_refl eq_refl eq_refl eq_refl
                  ltac:(discriminate))).
Defined.

(** ** Output paths *)

Lemma snake_char_not_hyphen (c : ascii) : is_snake_char c = true -> c <> hyphen.
Proof. intros H ->. discriminate. Qed.

(** A text is cut in one way only at its first hyphen. *)
Lemma split_at_hyphen (r1 r2 x y : str) :
  Forall (fun c => c <> hyphen) r1 -> Forall (fun c => c <> hyphen) r2 ->
  r1 ++ hyphen :: x = r2 ++ hyphen :: y -> r1 = r2 /\ x = y.
Proof.
  intros H1. revert r2. induction H1 as [|c r1 Hc _ IH]; intros r2 H2 E.
  - destruct H2 as [|c' r2 Hc' _]; simpl in E.
    + injection E as ->. auto.
    + injection E as E _. now contradiction Hc'.
  - destruct H2 as [|c' r2 Hc' H2]; simpl in E.
    + injection E as E _. now contradiction Hc.
    + injection E as -> E. destruct (IH r2 H2 E) as [-> ->]. auto.
Qed.

Lemma to_snake_case_no_hyphen (s : str) :
  Forall (fun c => c <> hyphen) (to_snake_case s).
Proof.
  apply Forall_impl with (2 := snake_chars (to_snake_case_snake s)).
  apply snake_char_not_hyphen.
Qed.

Lemma path_of_injective (t1 t2 i1 i2 : str) :
  output_path t1 i1 = output_path t2 i2 ->
  to_snake_case t1 = to_snake_case t2 /\ i1 = i2.
Proof.
  unfold output_path, path_of. intros E.
  apply app_inv_head in E. apply app_inv_head in E.
  change ([hyphen] ++ i1 ++ lit ".csv") with (hyphen :: i1 ++ lit ".csv") in E.
  change ([hyphen] ++ i2 ++ lit ".csv") with (hyphen :: i2 ++ lit ".csv") in E.
  apply split_at_hyphen in E; try apply to_snake_case_no_hyphen.
  destruct E as [E1 E2]. apply app_inv_tail in E2. auto.
Qed.

(** C7. The output path is a function of the normalized title and of the
    identifier alone, and two tasks with different identifiers have
    different output paths, whatever their titles. *)
Theorem output_path_deterministic_distinct (t1 t2 i1 i2 : str) (H : i1 <> i2) :
  (exists f, forall t i, output_path t i = f (to_snake_case t) i)
  /\ output_path t1 i1 <> output_path t2 i2.
Proof.
  split.
  - exists path_of. reflexivity.
  - intros E. apply path_of_injective in E. apply H, E.
Qed.

Lemma output_path_deterministic_distinct_witness :
  lit "2k9x-7h4c" <> lit "xubh-q36u"
  /\ to_snake_case (lit "Hospital Info") = to_snake_case (lit "hospital_info")
  /\ output_path (lit "Hospital Info") (lit "2k9x-7h4c")
     <> output_path (lit "hospital_info") (lit "xubh-q36u").
Proof.
  split; [discriminate|]. split; [reflexivity|].
  apply (proj2 (@output_path_deterministic_distinct
                  (lit "Hospital Info") (lit "hospital_info")
                  (lit "2k9x-7h4c") (lit "xubh-q36u") ltac:(discriminate))).
Defined.

(** ** The worker pool *)

Module PoolFacts.
Import Pool.
Section Executor.
Variables W R : Type.
Variable run : nat -> W -> R.
Variable max_workers : nat.
Hypothesis max_workers_pos : 0 < max_workers.

Local Abbreviation state := (Pool.state W R).
Local Abbreviation step := (Pool.step run max_workers).
Local Abbreviation steps := (Pool.steps run max_workers).
Local Abbreviation stuck := (Pool.stuck run max_workers).
Local Abbreviation invariant := (Pool.invariant run max_workers).

Ltac fields :=
  cbn [unsubmitted work_queue workers idle_semaphore done] in *.

Lemma in_progress_app (ws1 ws2 : list (worker W)) :
  in_progress (ws1 ++ ws2) = in_progress ws1 ++ in_progress ws2.
Proof.
  induction ws1 as [|[| |i w] ws1 IH]; simpl; auto. now rewrite IH.
Qed.

Lemma adjust_in_progress (sem : nat) (ws : list (worker W)) :
  in_progress (snd (adjust_thread_count max_workers sem ws)) = in_progress ws.
Proof.
  unfold adjust_thread_count. destruct sem; simpl; [|reflexivity].
  destruct (length ws <? max_workers); simpl; [|reflexivity].
  rewrite in_progress_app. simpl. apply app_nil_r.
Qed.

Lemma in_progress_idle (w0 : worker W) (ws : list (worker W)) :
  is_busy w0 = false -> in_progress (w0 :: ws) = in_progress ws.
Proof. destruct w0; simpl; congruence. Qed.

Lemma running_le_threads (s : state) : running s <= length (workers s).
Proof.
  unfold running. induction (workers s) as [|w ws IH]; simpl; [lia|].
  destruct (is_busy w); simpl; lia.
Qed.

Lemma invariant_init (ws : list W) : invariant ws (init R ws).
Proof.
  constructor; simpl.
  - lia.
  - unfold owed, results_of. simpl. rewrite !app_nil_r. reflexivity.
  - auto.
Qed.

Lemma invariant_step (ws0 : list W) (s s' : state) :
  invariant ws0 s -> step s s' -> invariant ws0 s'.
Proof.
  intros [Ht Ho Hs] Hstep.
  destruct Hstep; constructor; unfold owed in *; fields;
    try rewrite <- Ho; try (rewrite length_app in *; exact Ht);
    try (intros E; now apply app_eq_nil in E).
  - (* submit: the threads *)
    unfold adjust_thread_count. destruct sem; simpl; [|exact Ht].
    destruct (length ws <? max_workers) eqn:E; simpl; [|exact Ht].
    apply Nat.ltb_lt in E. rewrite length_app. simpl. lia.
  - (* submit: the results *)
    rewrite adjust_in_progress, map_app. simpl. rewrite <- !app_assoc. simpl.
    repeat rewrite <- Permutation_middle. reflexivity.
  - (* submit: a worker serves the queue *)
    unfold adjust_thread_count. destruct sem; simpl.
    + destruct (length ws <? max_workers) eqn:E; simpl.
      * intros H. now apply app_eq_nil in H.
      * intros ->. apply Nat.ltb_ge in E. simpl in E. lia.
    + intros ->. destruct (Hs eq_refl). discriminate.
  - (* take *)
    rewrite !in_progress_app, (in_progress_idle w0 ws2 H). simpl.
    rewrite !map_app. simpl. rewrite <- !app_assoc. simpl.
    repeat rewrite <- Permutation_middle. reflexivity.
  - (* idle *)
    rewrite !in_progress_app. reflexivity.
  - (* finish *)
    rewrite !in_progress_app. simpl.
    rewrite !map_app. simpl. rewrite <- !app_assoc. simpl.
    repeat rewrite <- Permutation_middle. rewrite app_nil_r. reflexivity.
Qed.

Lemma invariant_steps (ws0 : list W) (n : nat) (s s' : state) :
  invariant ws0 s -> steps n s s' -> invariant ws0 s'.
Proof.
  intros Hi Hs. induction Hs as [s|n s s1 s2 _ IH Hstep]; [exact Hi|].
  eapply invariant_step; [apply IH; exact Hi | exact Hstep].
Qed.

Lemma measure_step (s s' : state) : step s s' -> measure s' < measure s.
Proof.
  intros Hstep. destruct Hstep; unfold measure; fields;
    rewrite ?map_app, ?list_sum_app, ?length_app; cbn [length map list_sum].
  - unfold adjust_thread_count. destruct sem; cbn [snd].
    + destruct (length ws <? max_workers); cbn [snd]; [|lia].
      rewrite map_app, list_sum_app. cbn [map weight].
      change (list_sum [1]) with 1. lia.
    + lia.
  - destruct w0; cbn [is_busy weight] in *; try discriminate;
      unfold list_sum; cbn [fold_right]; lia.
  - unfold list_sum; cbn [fold_right weight]. lia.
  - unfold list_sum; cbn [fold_right weight]. lia.
Qed.

Lemma measure_steps (n : nat) (s s' : state) :
  steps n s s' -> n + measure s' <= measure s.
Proof.
  induction 1 as [s|n s s' s'' _ IH Hstep]; [lia|].
  apply measure_step in Hstep. lia.
Qed.

Lemma measure_init (ws : list W) : measure (init R ws) = 5 * length ws.
Proof.
  unfold measure, init. simpl.
  assert (E : forall i, length (enumerate i ws) = length ws).
  { induction ws as [|w ws IH]; intros i; simpl; auto. }
  rewrite E. lia.
Qed.

(** A state without transition has nothing left to submit, to take or to
    finish. *)
Lemma stuck_idle (ws0 : list W) (s : state) :
  invariant ws0 s -> stuck s ->
  unsubmitted s = [] /\ work_queue s = [] /\ in_progress (workers s) = [].
Proof.
  intros [_ _ Hs] Hstuck. destruct s as [u q ws sem d]. fields.
  assert (Hu : u = []).
  { destruct u as [|x u]; [reflexivity|].
    exfalso. eapply Hstuck. apply step_submit. }
  subst u.
  assert (Hw : forall w0, In w0 ws -> w0 = Waiting W).
  { intros w0 Hin. apply in_split in Hin. destruct Hin as (l1 & l2 & ->).
    destruct w0 as [| |i w].
    - exfalso. destruct q as [|[i w] q].
      + eapply Hstuck. apply step_idle.
      + eapply Hstuck. apply step_take. reflexivity.
    - reflexivity.
    - exfalso. eapply Hstuck. apply step_finish. }
  assert (Hq : q = []).
  { destruct q as [|[i w] q]; [reflexivity|]. exfalso.
    destruct ws as [|w0 ws]; [destruct (Hs eq_refl); discriminate|].
    eapply Hstuck. apply (step_take run max_workers [] i w q [] w0 ws sem d).
    rewrite (Hw w0 (or_introl eq_refl)). reflexivity. }
  repeat split; auto.
  clear -Hw. induction ws as [|w0 ws IH]; [reflexivity|].
  rewrite (Hw w0 (or_introl eq_refl)). simpl. apply IH.
  intros w1 H1. apply Hw. now right.
Qed.

(** In a state without transition the futures hold the results of all the
    items, each once. *)
Lemma stuck_done (ws0 : list W) (s : state) :
  invariant ws0 s -> stuck s -> Permutation (done s) (results_of run ws0).
Proof.
  intros Hi Hstuck. destruct (stuck_idle Hi Hstuck) as (Hu & Hq & Hp).
  rewrite <- (inv_owed Hi). unfold owed. rewrite Hu, Hq, Hp. reflexivity.
Qed.

(** From an invariant state either a transition exists or none does. *)
Lemma progress (ws0 : list W) (s : state) :
  invariant ws0 s -> (exists s', step s s') \/ stuck s.
Proof.
  intros [_ _ Hs]. destruct s as [u q ws sem d]. fields.
  destruct u as [|x u]; [|left; eexists; apply step_submit].
  destruct (existsb (fun w0 => negb (match w0 with Waiting _ => true | _ => false end)) ws)
    eqn:E.
  - left. apply existsb_exists in E. destruct E as (w0 & Hin & Hw0).
    apply in_split in Hin. destruct Hin as (l1 & l2 & ->).
    destruct w0 as [| |i w]; [|discriminate|].
    + destruct q as [|[i w] q].
      * eexists. apply step_idle.
      * eexists. apply step_take. reflexivity.
    + eexists. apply step_finish.
  - assert (Hw : forall w0, In w0 ws -> w0 = Waiting W).
    { intros w0 Hin. destruct w0 as [| |i w]; [|reflexivity|];
        exfalso; apply not_true_iff_false in E; apply E;
        apply existsb_exists; eexists; split; [exact Hin|reflexivity | exact Hin | reflexivity]. }
    destruct q as [|[i w] q].
    + right. intros s' Hstep. inversion Hstep; subst.
      * assert (Hin : In (Polling W) (ws1 ++ Polling W :: ws2))
          by (apply in_or_app; right; now left).
        apply Hw in Hin. discriminate.
      * assert (Hin : In (Busy i w) (ws1 ++ Busy i w :: ws2))
          by (apply in_or_app; right; now left).
        apply Hw in Hin. discriminate.
    + left. destruct ws as [|w0 ws]; [destruct (Hs eq_refl); discriminate|].
      eexists. apply (step_take run max_workers [] i w q [] w0 ws sem d).
      rewrite (Hw w0 (or_introl eq_refl)). reflexivity.
Qed.

(** Every invariant state runs on to a state without transition. *)
Lemma terminates (ws0 : list W) (k : nat) (s : state) :
  measure s <= k -> invariant ws0 s ->
  exists n s', steps n s s' /\ stuck s'.
Proof.
  revert s. induction k as [|k IH]; intros s Hk Hi.
  - exists 0, s. split; [constructor|].
    intros s' Hstep. apply measure_step in Hstep. lia.
  - destruct (progress Hi) as [[s1 Hstep]|Hstuck].
    + assert (Hk1 : measure s1 <= k) by (apply measure_step in Hstep; lia).
      destruct (IH s1 Hk1 (invariant_step Hi Hstep)) as (n & s' & Hn & Hs').
      exists (S n), s'. split; [|exact Hs'].
      clear -Hn Hstep. induction Hn as [s1|n s1 s2 s3 _ IHn H23].
      * eapply steps_S; [apply steps_O | exact Hstep].
      * eapply steps_S; [apply IHn; exact Hstep | exact H23].
    + exists 0, s. split; [constructor | exact Hstuck].
Qed.

Lemma results_of_indices (ws : list W) :
  map fst (results_of run ws) = seq 0 (length ws).
Proof.
  unfold results_of. generalize 0.
  induction ws as [|w ws IH]; intros i; simpl; [reflexivity|].
  now rewrite IH.
Qed.
End Executor.
End PoolFacts.

(** C9. Whatever the tasks submitted and however the pool interleaves its
    transitions, at most 5 tasks are running at any moment, every schedule
    ends after at most five transitions per task, the pool can always run on
    to a state without transition, and in such a state the futures hold
    exactly one result for each task submitted. *)
Theorem pool_bounded_and_complete
    (w : world) (to_download : list task) (n : nat)
    (s : Pool.state task ingestion)
    (Hs : Pool.steps (submitted w) max_workers n
            (Pool.init ingestion to_download) s) :
  Pool.running s <= 5
  /\ n <= 5 * length to_download
  /\ (exists k s', Pool.steps (submitted w) max_workers k s s'
                   /\ Pool.stuck (submitted w) max_workers s')
  /\ (forall k s', Pool.steps (submitted w) max_workers k s s' ->
        Pool.stuck (submitted w) max_workers s' ->
        Permutation (Pool.done s') (Pool.results_of (submitted w) to_download))
  /\ map fst (Pool.results_of (submitted w) to_download)
     = seq 0 (length to_download).
Proof.
  assert (Hpos : 0 < max_workers) by (unfold max_workers; lia).
  pose proof (PoolFacts.invariant_steps Hpos
                (PoolFacts.invariant_init (submitted w) Hpos to_download)
                Hs) as Hi.
  split; [|split; [|split; [|split]]].
  - pose proof (PoolFacts.running_le_threads Hpos s).
    pose proof (Pool.inv_threads Hi). unfold max_workers in *. lia.
  - pose proof (PoolFacts.measure_steps Hpos Hs) as Hm.
    rewrite (PoolFacts.measure_init ingestion Hpos) in Hm. lia.
  - apply (PoolFacts.terminates Hpos (k := Pool.measure s) (le_n _) Hi).
  - intros k s' Hk Hstuck.
    apply (PoolFacts.stuck_done (PoolFacts.invariant_steps Hpos Hi Hk) Hstuck).
  - apply PoolFacts.results_of_indices.
Qed.

Lemma pool_bounded_and_complete_witness :
  Pool.steps (submitted (world_A None io_ok)) max_workers 0
    (Pool.init ingestion (repeat task_A 10))
    (Pool.init ingestion (repeat task_A 10))
  /\ Pool.running (Pool.init ingestion (repeat task_A 10)) <= 5
  /\ map fst (Pool.results_of (submitted (world_A None io_ok)) (repeat task_A 10))
     = seq 0 10.
Proof.
  pose proof (@pool_bounded_and_complete (world_A None io_ok) (repeat task_A 10) 0
                (Pool.init ingestion (repeat task_A 10))
                (Pool.steps_O _ _ _)) as H.
  split; [apply Pool.steps_O|]. split; [apply H|]. apply H.
Defined.

(** ** The run *)

Lemma run_pool_length (w : world) (ts : list task) :
  length (run_pool w ts) = length ts.
Proof.
  unfold run_pool, Pool.results_of. rewrite !length_map.
  generalize 0. induction ts as [|t ts IH]; intros i; simpl; auto.
Qed.

Lemma enumerate_nth (W : Type) (ws : list W) (k i : nat) (x : W) :
  nth_error ws i = Some x -> nth_error (Pool.enumerate k ws) i = Some (k + i, x).
Proof.
  revert k i. induction ws as [|w ws IH]; intros k [|i]; simpl; try discriminate.
  - intros H. injection H as ->. now rewrite Nat.add_0_r.
  - intros H. rewrite (IH (S k) i H). f_equal. f_equal. lia.
Qed.

(** The ingestion of the [i]-th task depends on that task and on its own
    library calls only. *)
Lemma run_pool_nth (w : world) (ts : list task) (i : nat) (t : task) :
  nth_error ts i = Some t ->
  nth_error (run_pool w ts) i = Some (run_task (task_io w i) t).
Proof.
  intros H. unfold run_pool, Pool.results_of. rewrite !nth_error_map.
  rewrite (enumerate_nth ts 0 i H). reflexivity.
Qed.

(** [process_csv] returns, whatever its library calls do. *)
Lemma process_csv_returns (w : io) (url ident ttl : str) :
  returned (process_csv w url ident ttl)
  = inr (match process_csv_try w ident ttl with
         | inr _ => true
         | inl _ => false
         end).
Proof.
  unfold process_csv. destruct (process_csv_try w ident ttl) as [e|[p df]];
    reflexivity.
Qed.

Lemma first_raised_run_pool (w : world) (ts : list task) :
  first_raised (run_pool w ts) = None.
Proof.
  unfold run_pool, Pool.results_of. generalize 0.
  induction ts as [|t ts IH]; intros i; simpl; [reflexivity|].
  unfold Pool.result_of at 1. simpl. unfold submitted at 1, run_task.
  rewrite process_csv_returns. apply IH.
Qed.

(** A run whose selection is not empty reaches the end of [main]. *)
Lemma main_commits (w : world) (m : checkpoint) (ds : list dataset)
    (ts : list task) (out : list printed) :
  load_metadata (metadata_file w) = inr m ->
  catalog w = inr ds ->
  select_changes m ds = inr (ts, out) ->
  ts <> [] ->
  main w = {| ended := Saved (update_metadata m ts);
              selected := ts;
              ingestions := run_pool w ts;
              metadata_file_after := save_metadata (update_metadata m ts) |}.
Proof.
  intros Hl Hc Hsel Hne. unfold main. rewrite Hl, Hc, Hsel.
  destruct ts as [|t ts]; [now contradiction Hne|].
  now rewrite first_raised_run_pool.
Qed.

(** Tasks are selected only by a run that loaded the checkpoint and the
    catalog. *)
Lemma main_selected (w : world) (t : task) :
  In t (selected (main w)) ->
  exists m ds out,
    load_metadata (metadata_file w) = inr m
    /\ catalog w = inr ds
    /\ select_changes m ds = inr (selected (main w), out)
    /\ selected (main w) <> [].
Proof.
  unfold main.
  destruct (load_metadata (metadata_file w)) as [e|m] eqn:Hl; [contradiction|].
  destruct (catalog w) as [e|ds] eqn:Hc; [contradiction|].
  destruct (select_changes m ds) as [e|[ts out]] eqn:Hsel; [contradiction|].
  destruct ts as [|t0 ts]; [contradiction|].
  rewrite first_raised_run_pool. simpl. intros _.
  exists m, ds, out. repeat split; auto. discriminate.
Qed.

(** ** The checkpoint file *)

Lemma lex_escape_char (c : ascii) (acc tail : str) :
  lex (InString acc) (escape_char c ++ tail) = lex (InString (c :: acc)) tail.
Proof. each_char c; reflexivity. Qed.

Lemma lex_string_body (s acc tail : str) :
  lex (InString acc) (flat_map escape_char s ++ quote :: tail)
  = emit (TStr (rev acc ++ s)) (lex Outside tail).
Proof.
  revert acc. induction s as [|c s IH]; intros acc.
  - simpl. now rewrite app_nil_r.
  - cbn [flat_map]. rewrite <- app_assoc, lex_escape_char, IH.
    simpl. now rewrite <- app_assoc.
Qed.

Lemma lex_encode_str (s tail : str) :
  lex Outside (encode_str s ++ tail) = emit (TStr s) (lex Outside tail).
Proof.
  unfold encode_str. rewrite <- !app_assoc.
  change ([quote] ++ flat_map escape_char s ++ [quote] ++ tail)
    with (quote :: (flat_map escape_char s ++ quote :: tail)).
  change (lex Outside (quote :: (flat_map escape_char s ++ quote :: tail)))
    with (lex (InString []) (flat_map escape_char s ++ quote :: tail)).
  apply lex_string_body.
Qed.

Lemma lex_encode_item (kv : str * str) (tail : str) :
  lex Outside (encode_item kv ++ tail)
  = emit (TStr (fst kv)) (emit Colon (emit (TStr (snd kv)) (lex Outside tail))).
Proof.
  unfold encode_item. rewrite <- !app_assoc, lex_encode_str.
  change (lex Outside (lit ": " ++ encode_str (snd kv) ++ tail))
    with (emit Colon (lex Outside (encode_str (snd kv) ++ tail))).
  now rewrite lex_encode_str.
Qed.

Lemma lex_encode_items (items : list (str * str)) (tail : str) :
  lex Outside (encode_items items ++ tail)
  = option_map (app (tokens_of items)) (lex Outside tail).
Proof.
  induction items as [|kv items IH].
  - simpl. now destruct (lex Outside tail).
  - destruct items as [|kv' items].
    + cbn [encode_items tokens_of]. rewrite lex_encode_item.
      now destruct (lex Outside tail).
    + change (encode_items (kv :: kv' :: items))
        with (encode_item kv ++ lit "," ++ newline_indent
              ++ encode_items (kv' :: items)).
      rewrite <- !app_assoc, lex_encode_item.
      change (lex Outside (lit "," ++ newline_indent
                           ++ encode_items (kv' :: items) ++ tail))
        with (emit Comma (lex Outside (encode_items (kv' :: items) ++ tail))).
      rewrite IH.
      change (tokens_of (kv :: kv' :: items))
        with (TStr (fst kv) :: Colon :: TStr (snd kv) :: Comma
              :: tokens_of (kv' :: items)).
      now destruct (lex Outside tail).
Qed.

(** The tokens of the text written. *)
Lemma lex_json_dumps (m : checkpoint) :
  lex Outside (json_dumps m) = Some (LBrace :: tokens_of m ++ [RBrace]).
Proof.
  destruct m as [|kv m]; [reflexivity|].
  unfold json_dumps.
  change (lex Outside (lit "{" ++ newline_indent ++ encode_items (kv :: m)
                       ++ [newline] ++ lit "}"))
    with (emit LBrace (lex Outside (encode_items (kv :: m) ++ [newline] ++ lit "}"))).
  rewrite lex_encode_items. reflexivity.
Qed.

Lemma parse_members_tokens (kv : str * str) (items : list (str * str))
    (d : checkpoint) :
  parse_members (tokens_of (kv :: items) ++ [RBrace]) d
  = Some (fold_left set_item (kv :: items) d).
Proof.
  revert kv d. induction items as [|kv' items IH]; intros kv d.
  - reflexivity.
  - change (tokens_of (kv :: kv' :: items) ++ [RBrace])
      with (TStr (fst kv) :: Colon :: TStr (snd kv) :: Comma
            :: (tokens_of (kv' :: items) ++ [RBrace])).
    cbn [parse_members]. rewrite IH. reflexivity.
Qed.

Lemma dict_set_fresh (V : Type) (d : pydict V) (k : str) (v : V) :
  ~ In k (dict_keys d) -> dict_set d k v = d ++ [(k, v)].
Proof.
  induction d as [|[k0 v0] d IH]; simpl; intros H; [reflexivity|].
  rewrite (proj2 (str_eqb_neq k0 k)) by tauto.
  rewrite IH by tauto. reflexivity.
Qed.

Lemma dict_keys_set (V : Type) (d : pydict V) (k : str) (v : V) :
  dict_keys (dict_set d k v)
  = if existsb (str_eqb k) (dict_keys d) then dict_keys d else dict_keys d ++ [k].
Proof.
  induction d as [|[k0 v0] d IH]; simpl; [reflexivity|].
  destruct (str_eqb k0 k) eqn:E.
  - apply str_eqb_eq in E. subst. now rewrite str_eqb_refl.
  - assert (E' : str_eqb k k0 = false)
      by (apply str_eqb_neq; apply str_eqb_neq in E; congruence).
    rewrite E'. simpl. rewrite IH. now destruct (existsb (str_eqb k) (dict_keys d)).
Qed.

(** Assignments keep the keys of a dictionary distinct. *)
Lemma dict_set_nodup (V : Type) (d : pydict V) (k : str) (v : V) :
  NoDup (dict_keys d) -> NoDup (dict_keys (dict_set d k v)).
Proof.
  intros H. rewrite dict_keys_set.
  destruct (existsb (str_eqb k) (dict_keys d)) eqn:E; [exact H|].
  apply NoDup_app; [exact H | repeat constructor; auto |].
  intros x Hx [Ex|[]]. subst x.
  apply not_true_iff_false in E. apply E. apply existsb_exists.
  exists k. split; [exact Hx | apply str_eqb_refl].
Qed.

Lemma fold_set_item_fresh (items d : checkpoint) :
  NoDup (dict_keys (d ++ items)) -> fold_left set_item items d = d ++ items.
Proof.
  revert d. induction items as [|[k v] items IH]; intros d H; simpl.
  - now rewrite app_nil_r.
  - unfold set_item at 2. simpl.
    assert (Hk : ~ In k (dict_keys d)).
    { unfold dict_keys in *. rewrite map_app in H. simpl in H.
      apply NoDup_remove_2 in H. intros Hin. apply H. apply in_or_app. now left. }
    rewrite (@dict_set_fresh _ d k v Hk).
    rewrite IH; rewrite <- app_assoc; [reflexivity | exact H].
Qed.

Lemma fold_set_item_nodup (items d : checkpoint) :
  NoDup (dict_keys d) -> NoDup (dict_keys (fold_left set_item items d)).
Proof.
  revert d. induction items as [|kv items IH]; intros d H; simpl; [exact H|].
  apply IH. apply dict_set_nodup. exact H.
Qed.

(** Reading the text written gives the checkpoint back. *)
Lemma json_loads_dumps (m : checkpoint) :
  NoDup (dict_keys m) -> json_loads (json_dumps m) = Some m.
Proof.
  intros H. unfold json_loads. rewrite lex_json_dumps.
  destruct m as [|kv m]; [reflexivity|].
  assert (E : parse_object (LBrace :: tokens_of (kv :: m) ++ [RBrace])
              = parse_members (tokens_of (kv :: m) ++ [RBrace]) []).
  { destruct m; reflexivity. }
  rewrite E, parse_members_tokens. f_equal.
  apply (fold_set_item_fresh (kv :: m) []). exact H.
Qed.

(** The keys of a checkpoint that was read are distinct. *)
Lemma parse_members_nodup (ts : list token) (d m : checkpoint) :
  NoDup (dict_keys d) -> parse_members ts d = Some m -> NoDup (dict_keys m).
Proof.
  remember (length ts) as n eqn:En.
  assert (Hn : length ts <= n) by lia. clear En.
  revert ts d m Hn. induction n as [|n IH]; intros ts d m Hn Hd.
  - destruct ts; [discriminate | simpl in Hn; lia].
  - destruct ts as [|[| | | |k] [|[| | | |] [|[| | | |v] rest]]]; try discriminate.
    cbn [parse_members].
    destruct rest as [|[| | | |] rest]; try discriminate.
    + destruct rest; [|discriminate]. intros H. injection H as <-.
      now apply dict_set_nodup.
    + apply IH; [simpl in Hn; lia | now apply dict_set_nodup].
Qed.

Lemma json_loads_nodup (s : str) (m : checkpoint) :
  json_loads s = Some m -> NoDup (dict_keys m).
Proof.
  unfold json_loads. destruct (lex Outside s) as [ts|]; [|discriminate].
  unfold parse_object. destruct ts as [|[| | | |] ts]; try discriminate.
  assert (H0 : NoDup (dict_keys (@nil (str * str)))) by constructor.
  destruct ts as [|t ts]; [discriminate|].
  destruct t; try (now apply parse_members_nodup);
    destruct ts; try (now apply parse_members_nodup).
  intros H. injection H as <-. exact H0.
Qed.

Lemma load_metadata_nodup (file : option str) (m : checkpoint) :
  load_metadata file = inr m -> NoDup (dict_keys m).
Proof.
  unfold load_metadata. destruct file as [s|].
  - destruct (json_loads s) as [m'|] eqn:E; [|discriminate].
    intros H. injection H as <-. exact (json_loads_nodup _ E).
  - intros H. injection H as <-. constructor.
Qed.

Lemma update_metadata_nodup (ts : list task) (m : checkpoint) :
  NoDup (dict_keys m) -> NoDup (dict_keys (update_metadata m ts)).
Proof.
  unfold update_metadata. revert m.
  induction ts as [|t ts IH]; intros m H; simpl; [exact H|].
  apply IH. now apply dict_set_nodup.
Qed.

Lemma emit_some (t : token) (r : option (list token)) (ts : list token) :
  emit t r = Some ts -> exists ts', r = Some ts' /\ ts = t :: ts'.
Proof.
  destruct r as [ts'|]; simpl; [|discriminate].
  intros H. injection H as <-. eauto.
Qed.

Ltac lex_cases :=
  repeat match goal with
    | |- context [if ?b then _ else _] => destruct b
    | |- context [match ?x with Some _ => _ | None => _ end] => destruct x
    end.

(** A text whose tokens are known can be followed by any other. *)
Lemma lex_app (p q : str) (st : lex_state) (ts : list token) :
  lex st p = Some ts ->
  lex st (p ++ q) = option_map (app ts) (lex Outside q).
Proof.
  revert st ts. induction p as [|c p IH]; intros st ts.
  - destruct st; try discriminate. intros H. injection H as <-.
    simpl. now destruct (lex Outside q).
  - assert (Hemit : forall t ts0,
               emit t (lex Outside p) = Some ts0 ->
               emit t (lex Outside (p ++ q)) = option_map (app ts0) (lex Outside q)).
    { intros t ts0 H. apply emit_some in H. destruct H as (ts' & H & ->).
      rewrite (IH _ _ H). now destruct (lex Outside q). }
    destruct st; cbn [lex app]; lex_cases; try discriminate;
      first [apply IH | apply Hemit].
Qed.

(** A text that ends on a closing brace and has tokens ends on the token
    of the brace. *)
Lemma lex_rbrace_end (a : str) (st : lex_state) (ts : list token) :
  lex st (a ++ [rbrace]) = Some ts ->
  exists ta, lex st a = Some ta /\ ts = ta ++ [RBrace].
Proof.
  revert st ts. induction a as [|c a IH]; intros st ts.
  - destruct st; try discriminate.
    intros H. injection H as <-. exists []. auto.
  - assert (Hemit : forall t ts0,
               emit t (lex Outside (a ++ [rbrace])) = Some ts0 ->
               exists ta, emit t (lex Outside a) = Some ta /\ ts0 = ta ++ [RBrace]).
    { intros t ts0 H. apply emit_some in H. destruct H as (ts' & H & ->).
      destruct (IH _ _ H) as (ta & Ha & ->). rewrite Ha.
      exists (t :: ta). auto. }
    destruct st; cbn [lex app]; lex_cases; try discriminate;
      first [apply IH | apply Hemit].
Qed.

Lemma tokens_of_no_rbrace (items : list (str * str)) :
  existsb is_rbrace (tokens_of items) = false.
Proof.
  induction items as [|kv items IH]; [reflexivity|].
  destruct items; [reflexivity|]. exact IH.
Qed.

Lemma parse_members_rbrace (ts : list token) (d m : checkpoint) :
  parse_members ts d = Some m -> existsb is_rbrace ts = true.
Proof.
  remember (length ts) as n eqn:En.
  assert (Hn : length ts <= n) by lia. clear En.
  revert ts d m Hn. induction n as [|n IH]; intros ts d m Hn.
  - destruct ts; [discriminate | simpl in Hn; lia].
  - destruct ts as [|[| | | |k] [|[| | | |] [|[| | | |v] rest]]]; try discriminate.
    cbn [parse_members].
    destruct rest as [|[| | | |] rest]; try discriminate.
    + destruct rest; [|discriminate]. reflexivity.
    + intros H. apply IH in H; [exact H | simpl in Hn; simpl; lia].
Qed.

Lemma parse_object_rbrace (ts : list token) (m : checkpoint) :
  parse_object ts = Some m -> existsb is_rbrace ts = true.
Proof.
  unfold parse_object. destruct ts as [|[| | | |] ts]; try discriminate.
  destruct ts as [|t ts]; [discriminate|].
  destruct t; try (intros H; apply parse_members_rbrace in H; exact H).
  reflexivity.
Qed.

Lemma json_dumps_end (m : checkpoint) :
  exists body, json_dumps m = body ++ [rbrace].
Proof.
  destruct m as [|kv m].
  - exists (lit "{"). reflexivity.
  - exists (lit "{" ++ newline_indent ++ encode_items (kv :: m) ++ [newline]).
    unfold json_dumps. now rewrite <- !app_assoc.
Qed.

(** No text cut short of the one written can be read. *)
Lemma json_loads_prefix (m : checkpoint) (p q : str) :
  json_dumps m = p ++ q -> q <> [] -> json_loads p = None.
Proof.
  intros E Hq. unfold json_loads.
  destruct (lex Outside p) as [ts|] eqn:Hp; [|reflexivity].
  destruct (parse_object ts) as [m'|] eqn:Hparse; [|reflexivity].
  exfalso. apply parse_object_rbrace in Hparse.
  pose proof (lex_json_dumps m) as Hfull. rewrite E, (@lex_app p q _ _ Hp) in Hfull.
  destruct (lex Outside q) as [tq|] eqn:Hlq; [|discriminate].
  simpl in Hfull. injection Hfull as Hfull.
  destruct (exists_last Hq) as (q' & c & ->).
  destruct (json_dumps_end m) as (body & Hb).
  rewrite Hb, app_assoc in E. apply app_inj_tail in E. destruct E as [_ <-].
  apply lex_rbrace_end in Hlq. destruct Hlq as (ta & _ & ->).
  change (LBrace :: tokens_of m ++ [RBrace])
    with ((LBrace :: tokens_of m) ++ [RBrace]) in Hfull.
  rewrite app_assoc in Hfull. apply app_inj_tail in Hfull.
  destruct Hfull as [Hfull _].
  assert (Hno : existsb is_rbrace (ts ++ ta) = false).
  { rewrite Hfull. simpl. apply tokens_of_no_rbrace. }
  rewrite existsb_app, Hparse in Hno. discriminate.
Qed.

Lemma save_reaches_inv (m : checkpoint) (file : option str)
    (s : save_phase * option str) :
  save_reaches m file s ->
  match fst s with
  | NotOpened => snd s = file
  | Writing pending =>
      exists text, snd s = Some text /\ json_dumps m = text ++ pending
  | Closed => snd s = Some (json_dumps m)
  end.
Proof.
  induction 1 as [|s s' _ IH Hstep]; [reflexivity|].
  destruct Hstep; simpl in *.
  - exists []. auto.
  - destruct IH as (text' & E & Hd). injection E as <-.
    exists (text ++ [c]). split; [reflexivity|]. now rewrite <- app_assoc.
  - destruct IH as (text & -> & Hd). now rewrite app_nil_r in Hd; subst.
Qed.

(** A call of [save_metadata] can always be run to its end. *)
Lemma save_completes (m : checkpoint) (file : option str) :
  save_reaches m file (Closed, save_metadata m).
Proof.
  assert (H : forall pending text,
             save_reaches m file (Writing pending, Some text) ->
             save_reaches m file (Writing [], Some (text ++ pending))).
  { induction pending as [|c pending IH]; intros text Hr.
    - now rewrite app_nil_r.
    - change (text ++ c :: pending) with (text ++ [c] ++ pending).
      rewrite app_assoc. apply IH.
      eapply save_next; [exact Hr | apply save_write]. }
  eapply save_next; [|apply save_close]. unfold save_metadata.
  apply (H (json_dumps m) []).
  eapply save_next; [apply save_start | apply save_open].
Qed.

(** C2, as stated, fails: [save_metadata] is no atomic replace.  Between
    [open] and the first write the file is empty, and [load_metadata] does
    not parse it. *)
Lemma save_metadata_not_atomic :
  ~ (forall (m : checkpoint) (file : option str) (s : save_phase * option str),
       save_reaches m file s -> exists m', load_metadata (snd s) = inr m').
Proof.
  intros H.
  destruct (H checkpoint_A (Some (lit "{}"))
              (Writing (json_dumps checkpoint_A), Some []))
    as (m' & Hm').
  - eapply save_next; [apply save_start | apply save_open].
  - discriminate.
Qed.

(** C2, amended.  [save_metadata] truncates the checkpoint file and writes
    the whole mapping in place.  Run to its end, which is always possible,
    it leaves a file that holds the text of the mapping, whatever the file
    held before, and [load_metadata] gives the mapping back.  Until the last
    character is written the file holds a proper prefix of the text, and
    [load_metadata] fails on it. *)
Theorem save_metadata_in_place
    (m : checkpoint) (file : option str) (phase : save_phase) (disk : option str)
    (Hkeys : NoDup (dict_keys m))
    (Hs : save_reaches m file (phase, disk)) :
  save_reaches m file (Closed, save_metadata m)
  /\ load_metadata (save_metadata m) = inr m
  /\ match phase with
     | NotOpened => disk = file
     | Writing pending =>
         (exists text, disk = Some text /\ json_dumps m = text ++ pending)
         /\ (pending <> [] -> load_metadata disk = inl JSONDecodeError)
     | Closed => disk = save_metadata m
     end.
Proof.
  split; [apply save_completes|]. split.
  - unfold save_metadata, load_metadata. now rewrite json_loads_dumps.
  - apply save_reaches_inv in Hs. simpl in Hs.
    destruct phase as [|pending|]; try exact Hs.
    split; [exact Hs|]. intros Hne. destruct Hs as (text & -> & E).
    unfold load_metadata. now rewrite (@json_loads_prefix m text pending E Hne).
Qed.

Lemma save_metadata_in_place_witness :
  NoDup (dict_keys checkpoint_A)
  /\ save_reaches checkpoint_A (Some (lit "{}"))
       (Writing (json_dumps checkpoint_A), Some [])
  /\ load_metadata (Some []) = inl JSONDecodeError
  /\ load_metadata (save_metadata checkpoint_A) = inr checkpoint_A.
Proof.
  assert (Hk : NoDup (dict_keys checkpoint_A)).
  { repeat constructor. intros []. }
  assert (Hs : save_reaches checkpoint_A (Some (lit "{}"))
                 (Writing (json_dumps checkpoint_A), Some [])).
  { eapply save_next; [apply save_start | apply save_open]. }
  pose proof (save_metadata_in_place Hk Hs) as (_ & Hload & _ & Hfail).
  split; [exact Hk|]. split; [exact Hs|]. split; [|exact Hload].
  apply Hfail. discriminate.
Defined.

(** The checkpoint that a run saves can be read back. *)
Lemma watermark_saved (m : checkpoint) (ts : list task) (ident : str) :
  NoDup (dict_keys m) ->
  watermark (save_metadata (update_metadata m ts)) ident
  = dict_get (update_metadata m ts) ident.
Proof.
  intros H. unfold watermark, save_metadata, load_metadata.
  rewrite json_loads_dumps; [reflexivity|]. now apply update_metadata_nodup.
Qed.

(** The outcome of a run and the file it leaves do not depend on what the
    ingestions returned. *)
Lemma commit_ignores_results (w : world) (other : nat -> io) :
  let w' := {| metadata_file := metadata_file w; catalog := catalog w;
               task_io := other |} in
  ended (main w') = ended (main w)
  /\ metadata_file_after (main w') = metadata_file_after (main w).
Proof.
  unfold main. simpl.
  destruct (load_metadata (metadata_file w)) as [e|m]; [auto|].
  destruct (catalog w) as [e|ds]; [auto|].
  destruct (select_changes m ds) as [e|[[|t ts] out]]; [auto|auto|].
  rewrite !first_raised_run_pool. auto.
Qed.

(** C1 fails on the code.  Dataset [A] is selected on an empty checkpoint
    and its download fails: [process_csv] returns [False], yet the
    checkpoint saved maps [A] to the new date although [A] had no watermark
    before the run. *)
Theorem failed_task_advances_watermark :
  let w := world_A None io_unreachable in
  selected (main w) = [task_A]
  /\ map (@returned) (ingestions (main w)) = [inr false]
  /\ watermark (metadata_file w) (lit "A") = None
  /\ watermark (metadata_file_after (main w)) (lit "A") = Some (lit "2024-03-01").
Proof. vm_compute. repeat split. Qed.

(** C6. When the task of a dataset succeeded, the checkpoint file left by
    the run maps the identifier to the ISO text of the modified date that was
    parsed from the dataset's descriptor in the catalog, and that text reads
    back as the same date.  The identifiers of the tasks are distinct. *)
Theorem success_sets_watermark
    (w : world) (i : nat) (t : task) (r : ingestion)
    (Ht : nth_error (selected (main w)) i = Some t)
    (Hr : nth_error (ingestions (main w)) i = Some r)
    (Hok : returned r = inr true)
    (Hu : NoDup (map t_identifier (selected (main w)))) :
  watermark (metadata_file_after (main w)) (t_identifier t)
  = Some (isoformat (t_modified t))
  /\ strptime (isoformat (t_modified t)) = Some (t_modified t)
  /\ exists ds d ms,
       catalog w = inr ds /\ In d ds
       /\ identifier d = Some (t_identifier t)
       /\ modified d = Some ms /\ strptime ms = Some (t_modified t).
Proof.
  pose proof (nth_error_In _ _ Ht) as Hin.
  destruct (main_selected w t Hin) as (m & ds & out & Hl & Hc & Hsel & Hne).
  pose proof (main_commits w Hl Hc Hsel Hne) as Hmain.
  assert (Hts : selected_tasks m ds = Some (selected (main w))).
  { unfold selected_tasks. now rewrite Hsel. }
  destruct (selected_tasks_from _ _ Hts t Hin) as (d & Hd & Hemit).
  apply select_dataset_emit_inv in Hemit.
  destruct Hemit as (_ & Hi & _ & (ms & Hm & Hp) & _).
  split; [|split].
  - rewrite Hmain at 1. cbn [metadata_file_after].
    rewrite watermark_saved by exact (load_metadata_nodup _ Hl).
    now apply update_metadata_task.
  - destruct (strptime_valid _ Hp). now apply strptime_isoformat.
  - exists ds, d, ms. auto.
Qed.

Lemma success_sets_watermark_witness :
  nth_error (selected (main (world_A None io_ok))) 0 = Some task_A
  /\ nth_error (ingestions (main (world_A None io_ok))) 0
     = Some (run_task io_ok task_A)
  /\ returned (run_task io_ok task_A) = inr true
  /\ watermark (metadata_file_after (main (world_A None io_ok))) (lit "A")
     = Some (lit "2024-03-01").
Proof.
  assert (H1 : nth_error (selected (main (world_A None io_ok))) 0 = Some task_A)
    by reflexivity.
  assert (H2 : nth_error (ingestions (main (world_A None io_ok))) 0
               = Some (run_task io_ok task_A)) by reflexivity.
  assert (H3 : returned (run_task io_ok task_A) = inr true) by reflexivity.
  assert (H4 : NoDup (map t_identifier (selected (main (world_A None io_ok))))).
  { repeat constructor. intros []. }
  repeat (split; [assumption|]).
  apply (proj1 (success_sets_watermark (world_A None io_ok) 0 H1 H2 H3 H4)).
Defined.

(** C8. An exception raised inside one task by the download, the parsing or
    the write is caught in that task and becomes its result [False]; the
    result of every task depends on its own library calls only, no future
    holds an exception, and the run goes on to save the checkpoint. *)
Theorem task_failure_is_contained
    (w : world) (m : checkpoint) (ds : list dataset) (ts : list task)
    (out : list printed) (i : nat) (t : task) (e : exn)
    (Hl : load_metadata (metadata_file w) = inr m)
    (Hc : catalog w = inr ds)
    (Hsel : select_changes m ds = inr (ts, out))
    (Ht : nth_error ts i = Some t)
    (Hfail : process_csv_try (task_io w i) (t_identifier t) (t_title t) = inl e) :
  nth_error (ingestions (main w)) i
  = Some {| returned := inr false; written := None;
            said := PrintError (t_url t) e |}
  /\ (forall j t', nth_error ts j = Some t' ->
        nth_error (ingestions (main w)) j = Some (run_task (task_io w j) t'))
  /\ (forall r, In r (ingestions (main w)) -> exists b, returned r = inr b)
  /\ length (ingestions (main w)) = length ts
  /\ ended (main w) = Saved (update_metadata m ts)
  /\ metadata_file_after (main w) = save_metadata (update_metadata m ts).
Proof.
  assert (Hne : ts <> []) by (intros ->; destruct i; discriminate).
  rewrite (main_commits w Hl Hc Hsel Hne). cbn [ingestions ended metadata_file_after].
  split; [|split; [|split; [|split; [|split]]]]; try reflexivity.
  - rewrite (run_pool_nth w ts i Ht). unfold run_task, process_csv.
    now rewrite Hfail.
  - intros j t' Hj. now apply run_pool_nth.
  - intros r Hin. apply In_nth_error in Hin. destruct Hin as (j & Hj).
    assert (Hlt : j < length ts).
    { rewrite <- (run_pool_length w ts). apply nth_error_Some. congruence. }
    destruct (nth_error ts j) as [t'|] eqn:Et;
      [|apply nth_error_None in Et; lia].
    rewrite (run_pool_nth w ts j Et) in Hj. injection Hj as <-.
    unfold run_task. rewrite process_csv_returns. eauto.
  - apply run_pool_length.
Qed.

Lemma task_failure_is_contained_witness :
  load_metadata (metadata_file (world_A None io_unreachable)) = inr []
  /\ select_changes [] [dataset_A] = inr ([task_A], [])
  /\ process_csv_try io_unreachable (lit "A") (t_title task_A) = inl HTTPError
  /\ ended (main (world_A None io_unreachable))
     = Saved (update_metadata [] [task_A]).
Proof.
  assert (H1 : load_metadata (metadata_file (world_A None io_unreachable)) = inr [])
    by reflexivity.
  assert (H2 : select_changes [] [dataset_A] = inr ([task_A], [])) by reflexivity.
  assert (H3 : process_csv_try (task_io (world_A None io_unreachable) 0)
                 (t_identifier task_A) (t_title task_A) = inl HTTPError)
    by reflexivity.
  repeat (split; [assumption|]).
  apply (task_failure_is_contained (world_A None io_unreachable) 0
           H1 eq_refl H2 eq_refl H3).
Defined.

(** * Further properties of the code *)

(** ** What [to_snake_case] keeps *)







(** ** Output paths *)

Lemma count_no_slash (s : str) :
  Forall (fun c => is_snake_char c = true) s -> count_occ ascii_dec s slash = 0.
Proof.
  induction 1 as [|c s Hc _ IH]; [reflexivity|].
  simpl. destruct (ascii_dec c slash) as [->|]; [discriminate | exact IH].
Qed.

(** X2. Every output path lies under [processed_csv/], and it holds one
    separator more than the identifier: the title never adds a directory
    level, the identifier is used as it comes. *)
Theorem output_path_separators (ttl ident : str) :
  starts_with (OUTPUT_DIR ++ [slash]) (output_path ttl ident) = true
  /\ count_occ ascii_dec (output_path ttl ident) slash
     = 1 + count_occ ascii_dec ident slash.
Proof.
  split; [reflexivity|].
  unfold output_path, path_of. rewrite !count_occ_app.
  rewrite (count_no_slash (snake_chars (to_snake_case_snake ttl))).
  change (count_occ ascii_dec OUTPUT_DIR slash) with 0.
  change (count_occ ascii_dec (lit "/") slash) with 1.
  change (count_occ ascii_dec [hyphen] slash) with 0.
  change (count_occ ascii_dec (lit ".csv") slash) with 0.
  lia.
Qed.

(** ** Dates *)

Lemma isoformat_length (d : date) : length (isoformat d) = 10.
Proof. reflexivity. Qed.

(** X3. A date read from any accepted text passes the checks of the
    calendar, and the text that line 106 stores for it has ten characters
    and is read back at line 77 as the same date. *)
Theorem stored_watermark_reads_back (s : str) (d : date)
    (H : strptime s = Some d) :
  valid_date d = true
  /\ length (isoformat d) = 10
  /\ strptime (isoformat d) = Some d.
Proof.
  destruct (strptime_valid _ H) as [Hv Hy].
  split; [exact Hv|]. split; [apply isoformat_length|].
  now apply strptime_isoformat.
Qed.

Lemma stored_watermark_reads_back_witness :
  strptime (lit "2024-3-1") = Some (mkdate 2024 3 1)
  /\ isoformat (mkdate 2024 3 1) = lit "2024-03-01"
  /\ strptime (isoformat (mkdate 2024 3 1)) = Some (mkdate 2024 3 1).
Proof.
  assert (H : strptime (lit "2024-3-1") = Some (mkdate 2024 3 1)) by reflexivity.
  split; [exact H|]. split; [reflexivity|].
  apply (stored_watermark_reads_back _ H).
Defined.

(** ** The selection, descriptor by descriptor *)

Lemma starts_with_spec (p s : str) :
  starts_with p s = true <-> exists b, s = p ++ b.
Proof.
  revert s. induction p as [|a p IH]; intros s; simpl.
  - split; [intros _; now exists s | reflexivity].
  - destruct s as [|c s].
    + split; [discriminate | intros (b & Hb); discriminate].
    + rewrite andb_true_iff, Ascii.eqb_eq, IH. split.
      * intros (-> & b & ->). now exists b.
      * intros (b & Hb). injection Hb as -> ->. split; [reflexivity | now exists b].
Qed.

(** [p in s] holds exactly when [p] is a substring of [s]. *)
Lemma contains_spec (p s : str) :
  contains p s = true <-> exists a b, s = a ++ p ++ b.
Proof.
  induction s as [|c s IH].
  - simpl. rewrite orb_false_r, starts_with_spec. split.
    + intros (b & Hb). now exists [], b.
    + intros (a & b & H). destruct a; [now exists b|discriminate].
  - cbn [contains]. rewrite orb_true_iff, starts_with_spec, IH. split.
    + intros [(b & ->)|(a & b & ->)]; [now exists [], b | now exists (c :: a), b].
    + intros ([|x a] & b & H).
      * left. now exists b.
      * right. injection H as -> ->. now exists a, b.
Qed.

Lemma about_hospitals_spec (d : dataset) :
  existsb (contains (lit "Hospitals")) (get_or [] (theme d)) = true
  <-> about_hospitals d.
Proof.
  unfold about_hospitals. rewrite existsb_exists. split.
  - intros (th & Hin & Hc). apply contains_spec in Hc.
    destruct Hc as (a & b & ->). eauto.
  - intros (th & a & b & Hin & ->). exists (a ++ lit "Hospitals" ++ b).
    split; [exact Hin|]. apply contains_spec. eauto.
Qed.

Lemma first_csv_app (pre post : list distribution) (dist : distribution) :
  Forall (fun x => mediaType x <> Some (lit "text/csv")) pre ->
  mediaType dist = Some (lit "text/csv") ->
  first_csv (pre ++ dist :: post) = Some dist.
Proof.
  intros Hpre Hd. induction Hpre as [|x pre Hx _ IH]; cbn [app first_csv].
  - now rewrite Hd, str_eqb_refl.
  - destruct (mediaType x) as [mt|]; [|exact IH].
    destruct (str_eqb mt (lit "text/csv")) eqn:E; [|exact IH].
    apply str_eqb_eq in E. subst. now contradiction Hx.
Qed.

(** X4. A descriptor about hospitals that has an identifier, a modified
    date that parses, no stored watermark (or an empty one, or one that
    parses to an earlier date) and a CSV distribution with a download URL is
    selected: the task carries the URL of the first CSV distribution, the
    identifier, the parsed date and the title, [untitled] when there is none. *)
Theorem select_dataset_emits
    (m : checkpoint) (d : dataset) (ident ms url : str) (md : date)
    (pre post : list distribution) (dist : distribution)
    (Hth : about_hospitals d)
    (Hid : identifier d = Some ident)
    (Hm : modified d = Some ms)
    (Hp : strptime ms = Some md)
    (Hw : dict_get m ident = None \/ dict_get m ident = Some []
          \/ exists w ld, dict_get m ident = Some w /\ strptime w = Some ld
                          /\ date_ltb ld md = true)
    (Hds : distributions d = Some (pre ++ dist :: post))
    (Hpre : Forall (fun x => mediaType x <> Some (lit "text/csv")) pre)
    (Hcsv : mediaType dist = Some (lit "text/csv"))
    (Hurl : downloadURL dist = Some url) :
  select_dataset m d
  = Emit {| t_url := url; t_identifier := ident; t_modified := md;
            t_title := get_or (lit "untitled") (title d) |}.
Proof.
  apply about_hospitals_spec in Hth.
  assert (He : emit_csv ident (get_or (lit "untitled") (title d)) md d
               = Emit {| t_url := url; t_identifier := ident; t_modified := md;
                         t_title := get_or (lit "untitled") (title d) |}).
  { unfold emit_csv. rewrite Hds. cbn [get_or].
    now rewrite (@first_csv_app pre post dist Hpre Hcsv), Hurl. }
  unfold select_dataset. rewrite Hth, Hid.
  rewrite (proj2 (truthy_some (modified d) ms)) by
    (split; [exact Hm | exact (strptime_nonempty Hp)]).
  rewrite Hp. destruct Hw as [Hw|[Hw|(w & ld & Hw & Hl & Hlt)]].
  - rewrite Hw. exact He.
  - rewrite Hw. exact He.
  - rewrite (proj2 (truthy_some (dict_get m ident) w)) by
      (split; [exact Hw | exact (strptime_nonempty Hl)]).
    rewrite Hl. unfold date_ltb in Hlt. apply negb_true_iff in Hlt.
    rewrite Hlt. exact He.
Qed.

Lemma select_dataset_emits_witness :
  about_hospitals dataset_A
  /\ strptime (lit "2024-03-01") = Some (mkdate 2024 3 1)
  /\ select_dataset [] dataset_A = Emit task_A.
Proof.
  assert (Hth : about_hospitals dataset_A).
  { exists (lit "Hospitals"), [], []. split; [now left | reflexivity]. }
  split; [exact Hth|]. split; [reflexivity|].
  apply (@select_dataset_emits [] dataset_A (lit "A") (lit "2024-03-01")
           (lit "https://data.cms.gov/a.csv") (mkdate 2024 3 1) [] []
           (csv_distribution "https://data.cms.gov/a.csv")
           Hth eq_refl eq_refl eq_refl (or_introl eq_refl) eq_refl
           (Forall_nil _) eq_refl eq_refl).
Defined.

(** X5. A descriptor none of whose themes has [Hospitals] as a substring
    (the test is case-sensitive; a descriptor without themes is one of them)
    is passed over without a line printed and without its other keys being
    read: it may lack its identifier. *)
Theorem select_dataset_other_theme (m : checkpoint) (d : dataset)
    (H : ~ about_hospitals d) :
  select_dataset m d = Skip.
Proof.
  unfold select_dataset.
  destruct (existsb _ _) eqn:E; [|reflexivity].
  apply about_hospitals_spec in E. contradiction.
Qed.

Lemma select_dataset_other_theme_witness :
  ~ about_hospitals dataset_payments
  /\ identifier dataset_payments = None
  /\ select_dataset checkpoint_A dataset_payments = Skip.
Proof.
  assert (H : ~ about_hospitals dataset_payments).
  { intros E. apply about_hospitals_spec in E. discriminate. }
  split; [exact H|]. split; [reflexivity|].
  apply (select_dataset_other_theme checkpoint_A H).
Defined.

Lemma emitted_app (m : checkpoint) (ds1 ds2 : list dataset) :
  emitted m (ds1 ++ ds2)
  = match emitted m ds1, emitted m ds2 with
    | Some a, Some b => Some (a ++ b)
    | _, _ => None
    end.
Proof.
  induction ds1 as [|d ds1 IH]; simpl.
  - now destruct (emitted m ds2).
  - destruct (select_dataset m d); try exact IH; [|reflexivity].
    rewrite IH. destruct (emitted m ds1), (emitted m ds2); reflexivity.
Qed.

Lemma emitted_length (m : checkpoint) (ds : list dataset) (ts : list task) :
  emitted m ds = Some ts -> length ts <= length ds.
Proof.
  revert ts. induction ds as [|d ds IH]; simpl; intros ts.
  - intros H. injection H as <-. simpl. lia.
  - destruct (select_dataset m d); try discriminate.
    + intros H. apply IH in H. lia.
    + intros H. apply IH in H. lia.
    + destruct (emitted m ds) as [ts'|]; [|discriminate].
      intros H. injection H as <-. specialize (IH ts' eq_refl). simpl. lia.
Qed.

(** X6. The descriptors are decided one by one and the tasks keep the order
    of the catalog: the selection from two catalogs put end to end is the
    selection from the first followed by the selection from the second, and
    it fails when either does.  A catalog never yields more tasks than it
    has descriptors. *)
Theorem selection_composes (m : checkpoint) (ds1 ds2 : list dataset) :
  selected_tasks m (ds1 ++ ds2)
  = match selected_tasks m ds1, selected_tasks m ds2 with
    | Some a, Some b => Some (a ++ b)
    | _, _ => None
    end
  /\ (forall ts, selected_tasks m ds1 = Some ts -> length ts <= length ds1).
Proof.
  rewrite !selected_tasks_emitted. split; [apply emitted_app|].
  intros ts. apply emitted_length.
Qed.

(** ** Runs that end early *)

Lemma select_loop_raise (m : checkpoint) (d : dataset) (ds2 : list dataset)
    (e : exn) (ds1 : list dataset) :
  select_dataset m d = Raise e ->
  forall ts1 acc out,
    emitted m ds1 = Some ts1 ->
    select_loop m (ds1 ++ d :: ds2) acc out = inl e.
Proof.
  intros Hd. induction ds1 as [|x ds1 IH]; intros ts1 acc out; simpl.
  - intros _. now rewrite Hd.
  - destruct (select_dataset m x); try discriminate.
    + apply IH.
    + apply IH.
    + destruct (emitted m ds1) as [ts'|]; [|discriminate]. intros _.
      now apply (IH ts').
Qed.

(** X7. A descriptor about hospitals that lacks its identifier ends the run
    on [KeyError] at line 66, whatever the descriptors before it yielded:
    nothing is downloaded, not even for the descriptors already selected,
    and the checkpoint file stays as it was. *)
Theorem missing_identifier_aborts
    (w : world) (m : checkpoint) (ds1 ds2 : list dataset) (d : dataset)
    (ts1 : list task)
    (Hl : load_metadata (metadata_file w) = inr m)
    (Hc : catalog w = inr (ds1 ++ d :: ds2))
    (H1 : selected_tasks m ds1 = Some ts1)
    (Hth : about_hospitals d)
    (Hid : identifier d = None) :
  ended (main w) = Raised (KeyError (lit "identifier"))
  /\ ingestions (main w) = []
  /\ metadata_file_after (main w) = metadata_file w.
Proof.
  assert (Hd : select_dataset m d = Raise (KeyError (lit "identifier"))).
  { unfold select_dataset.
    now rewrite (proj2 (about_hospitals_spec d) Hth), Hid. }
  rewrite selected_tasks_emitted in H1.
  unfold main. rewrite Hl, Hc. unfold select_changes.
  rewrite (@select_loop_raise m d ds2 _ ds1 Hd ts1 [] [] H1). auto.
Qed.

Lemma missing_identifier_aborts_witness :
  selected_tasks [] [dataset_A] = Some [task_A]
  /\ about_hospitals dataset_anonymous
  /\ identifier dataset_anonymous = None
  /\ ended (main world_anonymous) = Raised (KeyError (lit "identifier")).
Proof.
  assert (H1 : selected_tasks [] [dataset_A] = Some [task_A]) by reflexivity.
  assert (Hth : about_hospitals dataset_anonymous).
  { exists (lit "Hospitals"), [], []. split; [now left | reflexivity]. }
  split; [exact H1|]. split; [exact Hth|]. split; [reflexivity|].
  apply (@missing_identifier_aborts world_anonymous [] [dataset_A] []
           dataset_anonymous [task_A] eq_refl eq_refl H1 Hth eq_refl).
Defined.



(** ** The checkpoint after the update *)

Lemma update_metadata_snoc (ts : list task) (t : task) (m : checkpoint)
    (ident : str) :
  dict_get (update_metadata m (ts ++ [t])) ident
  = if str_eqb (t_identifier t) ident then Some (isoformat (t_modified t))
    else dict_get (update_metadata m ts) ident.
Proof.
  unfold update_metadata. rewrite fold_left_app. simpl. apply dict_get_set.
Qed.

(** The watermark after the update, read off the tasks from the last one
    back. *)
Lemma update_metadata_get (ts : list task) (m : checkpoint) (ident : str) :
  dict_get (update_metadata m ts) ident
  = match find (fun t => str_eqb (t_identifier t) ident) (rev ts) with
    | Some t => Some (isoformat (t_modified t))
    | None => dict_get m ident
    end.
Proof.
  induction ts as [|t ts IH] using rev_ind; [reflexivity|].
  rewrite update_metadata_snoc, rev_unit. simpl.
  destruct (str_eqb (t_identifier t) ident); [reflexivity | exact IH].
Qed.

(** X9. After lines 105-106 the checkpoint holds, for an identifier that
    some task bears, the ISO text of the date of the last such task, and for
    any other identifier what it held before. *)
Theorem update_metadata_last_wins (ts : list task) (m : checkpoint) (ident : str) :
  dict_get (update_metadata m ts) ident
  = match last_task_for ident ts with
    | Some t => Some (isoformat (t_modified t))
    | None => dict_get m ident
    end.
Proof.
  unfold last_task_for. induction ts as [|t ts IH] using rev_ind.
  - reflexivity.
  - unfold update_metadata in *. rewrite fold_left_app, rev_unit. simpl.
    rewrite dict_get_set.
    destruct (str_eqb (t_identifier t) ident); [reflexivity | exact IH].
Qed.

(** ** Watermarks across a run *)


Lemma last_task_for_some (ident : str) (ts : list task) (t : task) :
  last_task_for ident ts = Some t -> In t ts /\ t_identifier t = ident.
Proof.
  unfold last_task_for. intros H. apply find_some in H. destruct H as [Hin He].
  split; [now apply in_rev | now apply str_eqb_eq].
Qed.

Lemma last_task_for_none (ident : str) (ts : list task) :
  last_task_for ident ts = None -> forall t, In t ts -> t_identifier t <> ident.
Proof.
  unfold last_task_for. intros H t Hin E.
  apply in_rev in Hin. pose proof (find_none _ _ H t Hin) as Hf.
  apply str_eqb_neq in Hf. contradiction.
Qed.






(** ** Running twice *)

Lemma select_dataset_unfold (m : checkpoint) (d : dataset) (ident ms : str)
    (md : date) :
  existsb (contains (lit "Hospitals")) (get_or [] (theme d)) = true ->
  identifier d = Some ident ->
  truthy (modified d) = Some ms ->
  strptime ms = Some md ->
  select_dataset m d
  = match truthy (dict_get m ident) with
    | Some w =>
        match strptime w with
        | None => SkipInvalid ms
        | Some ld =>
            if date_leb md ld then Skip
            else emit_csv ident (get_or (lit "untitled") (title d)) md d
        end
    | None => emit_csv ident (get_or (lit "untitled") (title d)) md d
    end.
Proof. intros Hth Hid Hm Hp. unfold select_dataset. now rewrite Hth, Hid, Hm, Hp. Qed.

Lemma emitted_in (m : checkpoint) (ds : list dataset) (ts : list task)
    (d : dataset) (t : task) :
  emitted m ds = Some ts -> In d ds -> select_dataset m d = Emit t -> In t ts.
Proof.
  revert ts. induction ds as [|x ds IH]; intros ts Hts Hin Hd; [contradiction|].
  simpl in Hts. destruct Hin as [->|Hin].
  - rewrite Hd in Hts. destruct (emitted m ds); [|discriminate].
    injection Hts as <-. now left.
  - destruct (select_dataset m x); try discriminate; eauto.
    destruct (emitted m ds) as [ts'|]; [|discriminate].
    injection Hts as <-. right. eauto.
Qed.

Lemma emitted_no_raise (m : checkpoint) (ds : list dataset) (ts : list task)
    (d : dataset) (e : exn) :
  emitted m ds = Some ts -> In d ds -> select_dataset m d <> Raise e.
Proof.
  revert ts. induction ds as [|x ds IH]; intros ts Hts Hin Hd; [contradiction|].
  simpl in Hts. destruct Hin as [->|Hin].
  - rewrite Hd in Hts. discriminate.
  - destruct (select_dataset m x); try discriminate.
    + exact (IH _ Hts Hin Hd).
    + exact (IH _ Hts Hin Hd).
    + destruct (emitted m ds) as [ts'|]; [|discriminate].
      exact (IH _ eq_refl Hin Hd).
Qed.

Lemma emitted_quiet (m : checkpoint) (ds : list dataset) :
  (forall d, In d ds -> quiet (select_dataset m d)) -> emitted m ds = Some [].
Proof.
  induction ds as [|x ds IH]; intros H; [reflexivity|].
  simpl. pose proof (H x (or_introl eq_refl)) as Hx.
  destruct (select_dataset m x); try contradiction;
    apply IH; intros d Hd; apply H; now right.
Qed.

Lemma same_identifier_same_task (ts : list task) (a b : task) :
  NoDup (map t_identifier ts) -> In a ts -> In b ts ->
  t_identifier a = t_identifier b -> a = b.
Proof.
  induction ts as [|t ts IH]; intros Hnd Ha Hb E; [contradiction|].
  simpl in Hnd. inversion Hnd as [|? ? Hnot Hnd']; subst.
  destruct Ha as [->|Ha], Hb as [->|Hb]; auto.
  - exfalso. apply Hnot. rewrite E. now apply in_map.
  - exfalso. apply Hnot. rewrite <- E. now apply in_map.
Qed.

Lemma date_order_cycle (a b c : date) :
  date_leb a b = true -> date_ltb b c = true -> date_ltb c a = true -> False.
Proof.
  unfold date_ltb. rewrite !negb_true_iff, <- !not_true_iff_false.
  rewrite !date_leb_spec. lia.
Qed.

Lemma date_ltb_irrefl (a : date) : date_ltb a a = false.
Proof. unfold date_ltb. now rewrite date_leb_refl. Qed.

Lemma date_leb_ltb_trans (a b c : date) :
  date_leb a b = true -> date_ltb b c = true -> date_leb a c = true.
Proof.
  unfold date_ltb. rewrite !negb_true_iff, <- !not_true_iff_false.
  rewrite !date_leb_spec. lia.
Qed.

Lemma truthy_isoformat (d : date) :
  truthy (Some (isoformat d)) = Some (isoformat d).
Proof. reflexivity. Qed.

(** Once the checkpoint is updated with the tasks selected, every
    descriptor of the catalog is passed over. *)
Lemma updated_checkpoint_quiet (m : checkpoint) (ds : list dataset)
    (ts : list task) (d : dataset) :
  emitted m ds = Some ts ->
  NoDup (map t_identifier ts) ->
  In d ds ->
  quiet (select_dataset (update_metadata m ts) d).
Proof.
  intros Hts Hnd Hin.
  assert (Hts' : selected_tasks m ds = Some ts) by now rewrite selected_tasks_emitted.
  destruct (existsb (contains (lit "Hospitals")) (get_or [] (theme d))) eqn:Hth;
    [|unfold select_dataset; rewrite Hth; exact I].
  destruct (identifier d) as [ident|] eqn:Hid.
  2:{ exfalso.
      apply (@emitted_no_raise m ds ts d (KeyError (lit "identifier")) Hts Hin).
      unfold select_dataset. now rewrite Hth, Hid. }
  destruct (truthy (modified d)) as [ms|] eqn:Hm;
    [|unfold select_dataset; rewrite Hth, Hid, Hm; exact I].
  destruct (strptime ms) as [md|] eqn:Hp;
    [|unfold select_dataset; rewrite Hth, Hid, Hm, Hp; exact I].
  pose proof (select_dataset_unfold m d Hth Hid Hm Hp) as E1.
  rewrite (select_dataset_unfold (update_metadata m ts) d Hth Hid Hm Hp).
  rewrite update_metadata_get. fold (last_task_for ident ts).
  assert (Hmd : strptime (isoformat md) = Some md).
  { destruct (strptime_valid _ Hp). now apply strptime_isoformat. }
  (* what a task that bears the identifier tells about the old watermark *)
  assert (Htask : forall t, In t ts -> t_identifier t = ident ->
            strptime (isoformat (t_modified t)) = Some (t_modified t)
            /\ forall w, dict_get m ident = Some w -> w <> [] ->
                 exists ld, strptime w = Some ld
                            /\ date_ltb ld (t_modified t) = true).
  { intros t Ht Hti.
    destruct (selected_tasks_from _ _ Hts' t Ht) as (d' & _ & Hemit).
    apply select_dataset_emit_inv in Hemit.
    destruct Hemit as (_ & _ & _ & (ms' & _ & Hp') & Hlast & _).
    rewrite Hti in Hlast. split; [|exact Hlast].
    destruct (strptime_valid _ Hp'). now apply strptime_isoformat. }
  set (E := emit_csv ident (get_or (lit "untitled") (title d)) md d) in *.
  (* the descriptor reached line 87 in the first selection *)
  assert (HA : select_dataset m d = E ->
               quiet match truthy match last_task_for ident ts with
                                  | Some t => Some (isoformat (t_modified t))
                                  | None => dict_get m ident
                                  end with
                     | Some w =>
                         match strptime w with
                         | Some ld => if date_leb md ld then Skip else E
                         | None => SkipInvalid ms
                         end
                     | None => E
                     end).
  { intros Hd. destruct E as [| |t0|e] eqn:EE.
    - repeat match goal with
             | |- quiet (match ?x with _ => _ end) => destruct x
             end; exact I.
    - repeat match goal with
             | |- quiet (match ?x with _ => _ end) => destruct x
             end; exact I.
    - pose proof (@emitted_in m ds ts d t0 Hts Hin Hd) as H0.
      apply emit_csv_inv in EE. destruct EE as (Hi0 & Hm0 & _).
      destruct (last_task_for ident ts) as [t|] eqn:Et.
      + apply last_task_for_some in Et. destruct Et as [Ht Hti].
        assert (t = t0) by (apply (same_identifier_same_task ts); congruence).
        subst t. rewrite Hm0, truthy_isoformat, Hmd, date_leb_refl. exact I.
      + exfalso. exact (@last_task_for_none ident ts Et t0 H0 Hi0).
    - exfalso. exact (@emitted_no_raise m ds ts d e Hts Hin Hd). }
  destruct (truthy (dict_get m ident)) as [w|] eqn:Ew; [|exact (HA E1)].
  pose proof Ew as Ew'. apply truthy_some in Ew'. destruct Ew' as [Hw Hne].
  destruct (strptime w) as [ld|] eqn:Hl.
  - destruct (date_leb md ld) eqn:Hle; [|exact (HA E1)].
    destruct (last_task_for ident ts) as [t|] eqn:Et.
    + apply last_task_for_some in Et. destruct Et as [Ht Hti].
      destruct (Htask t Ht Hti) as [Hiso Hlast].
      destruct (Hlast w Hw Hne) as (ld0 & Hl0 & Hlt).
      rewrite Hl in Hl0. injection Hl0 as <-.
      rewrite truthy_isoformat, Hiso, (date_leb_ltb_trans _ _ _ Hle Hlt). exact I.
    + rewrite Ew, Hl, Hle. exact I.
  - destruct (last_task_for ident ts) as [t|] eqn:Et.
    + apply last_task_for_some in Et. destruct Et as [Ht Hti].
      destruct (Htask t Ht Hti) as [_ Hlast].
      destruct (Hlast w Hw Hne) as (ld0 & Hl0 & _). congruence.
    + rewrite Ew, Hl. exact I.
Qed.

Lemma main_nothing_new (w : world) (m : checkpoint) (ds : list dataset) :
  load_metadata (metadata_file w) = inr m ->
  catalog w = inr ds ->
  emitted m ds = Some [] ->
  ended (main w) = NoNew /\ ingestions (main w) = []
  /\ metadata_file_after (main w) = metadata_file w.
Proof.
  intros Hl Hc He. unfold main. rewrite Hl, Hc.
  pose proof (select_loop_emitted m ds [] []) as Hloop. rewrite He in Hloop.
  unfold select_changes.
  destruct (select_loop m ds [] []) as [e|[ts out]]; [discriminate|].
  simpl in Hloop. injection Hloop as ->. auto.
Qed.

(** X12. A run that saved the checkpoint, or found nothing new, leaves
    nothing for the next one: run again on the file it left and on the same
    catalog, [main] selects no task, downloads nothing and leaves the file
    alone, whatever the downloads of the first run returned.  The
    identifiers of the tasks of the first run are distinct. *)
Theorem second_run_selects_nothing (w : world) (other : nat -> io)
    (Hend : forall e, ended (main w) <> Raised e)
    (Hnd : NoDup (map t_identifier (selected (main w)))) :
  let w2 := {| metadata_file := metadata_file_after (main w);
               catalog := catalog w; task_io := other |} in
  ended (main w2) = NoNew
  /\ ingestions (main w2) = []
  /\ metadata_file_after (main w2) = metadata_file_after (main w).
Proof.
  intros w2.
  destruct (load_metadata (metadata_file w)) as [e|m] eqn:Hl.
  { exfalso. apply (Hend e). unfold main. now rewrite Hl. }
  destruct (catalog w) as [e|ds] eqn:Hc.
  { exfalso. apply (Hend e). unfold main. now rewrite Hl, Hc. }
  destruct (select_changes m ds) as [e|[ts out]] eqn:Hsel.
  { exfalso. apply (Hend e). unfold main. now rewrite Hl, Hc, Hsel. }
  assert (Hts : emitted m ds = Some ts).
  { rewrite <- selected_tasks_emitted. unfold selected_tasks. now rewrite Hsel. }
  destruct ts as [|t ts].
  - assert (Hfile : metadata_file_after (main w) = metadata_file w).
    { unfold main. now rewrite Hl, Hc, Hsel. }
    apply (@main_nothing_new w2 m ds); [|reflexivity|exact Hts].
    unfold w2. cbn [metadata_file]. now rewrite Hfile.
  - assert (Hne : t :: ts <> []) by discriminate.
    pose proof (main_commits w Hl Hc Hsel Hne) as Hmain.
    rewrite Hmain in Hnd. cbn [selected] in Hnd.
    apply (@main_nothing_new w2 (update_metadata m (t :: ts)) ds); [|reflexivity|].
    + unfold w2. cbn [metadata_file]. rewrite Hmain. cbn [metadata_file_after].
      unfold save_metadata, load_metadata.
      rewrite json_loads_dumps; [reflexivity|].
      apply update_metadata_nodup. exact (load_metadata_nodup _ Hl).
    + apply emitted_quiet. intros d Hd.
      now apply (@updated_checkpoint_quiet m ds (t :: ts) d Hts).
Qed.

Lemma second_run_selects_nothing_witness :
  (forall e, ended (main (world_A None io_unreachable)) <> Raised e)
  /\ NoDup (map t_identifier (selected (main (world_A None io_unreachable))))
  /\ ended (main {| metadata_file :=
                      metadata_file_after (main (world_A None io_unreachable));
                    catalog := catalog (world_A None io_unreachable);
                    task_io := fun _ => io_ok |}) = NoNew.
Proof.
  assert (H1 : forall e, ended (main (world_A None io_unreachable)) <> Raised e)
    by discriminate.
  assert (H2 : NoDup (map t_identifier (selected (main (world_A None io_unreachable))))).
  { repeat constructor. intros []. }
  split; [exact H1|]. split; [exact H2|].
  apply (proj1 (@second_run_selects_nothing (world_A None io_unreachable)
                  (fun _ => io_ok) H1 H2)).
Defined.

(** ** What one ingestion leaves *)



(** ** Damaged inputs *)

(** X14. A checkpoint file that holds only the beginning of a saved text,
    as an interrupted [save_metadata] leaves it, ends every later run on
    the decoding error of line 24: the catalog is not used, nothing is
    downloaded, and the file stays as it is. *)
Theorem truncated_checkpoint_blocks_runs
    (w : world) (m : checkpoint) (text pending : str)
    (Hfile : metadata_file w = Some text)
    (Hcut : json_dumps m = text ++ pending)
    (Hne : pending <> []) :
  ended (main w) = Raised JSONDecodeError
  /\ ingestions (main w) = []
  /\ metadata_file_after (main w) = Some text.
Proof.
  unfold main, load_metadata. rewrite Hfile.
  rewrite (@json_loads_prefix m text pending Hcut Hne).
  cbn [stop ended ingestions metadata_file_after]. auto.
Qed.

Lemma truncated_checkpoint_blocks_runs_witness :
  json_dumps checkpoint_A = truncated_A ++ lit "-01" ++ [quote; newline] ++ lit "}"
  /\ ended (main (world_A (Some truncated_A) io_ok)) = Raised JSONDecodeError.
Proof.
  assert (H : json_dumps checkpoint_A
              = truncated_A ++ lit "-01" ++ [quote; newline] ++ lit "}") by reflexivity.
  split; [exact H|].
  apply (@truncated_checkpoint_blocks_runs (world_A (Some truncated_A) io_ok)
           checkpoint_A truncated_A _ eq_refl H ltac:(discriminate)).
Defined.


